(** * web-pars/main.py: the scraping pipeline

    A shallow embedding of [src/web-pars/main.py].  Python strings are
    lists of code points; the fallible calls on the browser and on the
    database run in a small state-and-exception monad against a script
    of answers and faults; the processes started by [main] form a
    transition system driven by a schedule, so that a property of every
    interleaving is a property of every schedule. *)

From Stdlib Require Import ZArith NArith Ascii String Lia.
From stdpp Require Import base option list.

Local Open Scope Z_scope.

(** * Part I: the program

    ** Python strings *)

Module PyStr.

(** A [str] is a sequence of Unicode code points. *)
Definition str : Type := list N.

(** An ASCII literal, for readable examples. *)
Definition py (s : string) : str := map N_of_ascii (list_ascii_of_string s).

(** The code points [str.strip()] removes: those for which
    [str.isspace()] holds. *)
Definition isspace (c : N) : bool :=
  ((9 <=? c) && (c <=? 13) || (28 <=? c) && (c <=? 32)
   || (c =? 133) || (c =? 160) || (c =? 5760)
   || (8192 <=? c) && (c <=? 8202)
   || (c =? 8232) || (c =? 8233) || (c =? 8239) || (c =? 8287)
   || (c =? 12288))%N.

Fixpoint lstrip (s : str) : str :=
  match s with
  | [] => []
  | c :: s' => if isspace c then lstrip s' else s
  end.

Definition rstrip (s : str) : str := rev (lstrip (rev s)).

(** [s.strip()] *)
Definition strip (s : str) : str := rstrip (lstrip s).

(** [s] used as a condition: the empty string is falsy. *)
Definition truthy (s : str) : bool :=
  match s with [] => false | _ :: _ => true end.

(** [strip_prefix p s] is [Some r] when [s = p ++ r]. *)
Fixpoint strip_prefix (p s : str) : option str :=
  match p, s with
  | [], _ => Some s
  | _ :: _, [] => None
  | a :: p', b :: s' => if (a =? b)%N then strip_prefix p' s' else None
  end.

Fixpoint replace_from (fuel : nat) (old new s : str) : str :=
  match fuel with
  | O => s
  | S fuel' =>
      match s with
      | [] => []
      | c :: s' =>
          match strip_prefix old s with
          | Some rest => new ++ replace_from fuel' old new rest
          | None => c :: replace_from fuel' old new s'
          end
      end
  end.

(** [s.replace(old, new)]: every non-overlapping occurrence, scanning
    from the left; an empty [old] matches between all characters. *)
Definition replace (old new s : str) : str :=
  match old with
  | [] => new ++ flat_map (fun c => c :: new) s
  | _ :: _ => replace_from (length s) old new s
  end.

(** [sep.join(parts)] *)
Fixpoint join (sep : str) (parts : list str) : str :=
  match parts with
  | [] => []
  | [x] => x
  | x :: rest => x ++ sep ++ join sep rest
  end.

Definition dquote : N := 34.
Definition squote : N := 39.
Definition space : N := 32.

End PyStr.

Import PyStr.

(** ** Exceptions and the state-and-exception monad *)

(** The exception classes the handlers of the program tell apart:
    selenium's [WebDriverException] (with its subclass
    [TimeoutException], raised by [WebDriverWait.until]),
    mysql.connector's [Error], and any other [Exception]. *)
Inductive exn : Type :=
| WebDriverException
| TimeoutException
| Error
| OtherException.

Definition is_WebDriverException (e : exn) : bool :=
  match e with WebDriverException | TimeoutException => true | _ => false end.

Definition is_Error (e : exn) : bool :=
  match e with Error => true | _ => false end.

Module Exc.

(** A computation over a state [St] that returns or raises. *)
Definition M (St A : Type) : Type := St -> (exn + A) * St.

Definition ret {St A} (a : A) : M St A := fun w => (inr a, w).

Definition raise {St A} (e : exn) : M St A := fun w => (inl e, w).

Definition bind {St A B} (m : M St A) (k : A -> M St B) : M St B :=
  fun w =>
    match m w with
    | (inl e, w') => (inl e, w')
    | (inr a, w') => k a w'
    end.

Definition gets {St A} (f : St -> A) : M St A := fun w => (inr (f w), w).

Definition modify {St} (f : St -> St) : M St unit := fun w => (inr tt, f w).

(** [try: m  except C as e: h e], where [catches] decides the class [C]. *)
Definition try_except {St A} (catches : exn -> bool)
    (m : M St A) (h : exn -> M St A) : M St A :=
  fun w =>
    match m w with
    | (inl e, w') => if catches e then h e w' else (inl e, w')
    | (inr a, w') => (inr a, w')
    end.

(** [try: m  finally: f]: [f] runs on every exit of [m]; an exception
    raised by [f] replaces the outcome of [m]. *)
Definition try_finally {St A} (m : M St A) (f : M St unit) : M St A :=
  fun w =>
    let '(r, w') := m w in
    match f w' with
    | (inl e, w'') => (inl e, w'')
    | (inr _, w'') => (r, w'')
    end.

End Exc.

Import Exc.

Notation "'do' x <- m ; k" := (bind m (fun x => k))
  (at level 10, x name, m at level 100, k at level 200).
Notation "'exec' m ; k" := (bind m (fun _ => k))
  (at level 10, m at level 100, k at level 200).

(** [except Exception]: every class of [exn]. *)
Definition Exception (e : exn) : bool := true.

(** ** Data carried through the pipeline *)

(** A row of [fetch_companies]: [(id, homepageurl)]. *)
Definition company : Type := Z * str.

(** What travels on [result_queue]: the tuple [(text, company_id)] put
    by [parse_company], or the string ["STOP"] put by [main].  A tuple
    never compares equal to a string, so the two are told apart by
    constructor. *)
Inductive item : Type :=
| Envelope (text : str) (company_id : Z)
| STOP.

(** The marker [parse_company] sends in place of a text when it fails. *)
Definition ERROR : str := py "ERROR".

(** Lines written through [logging]. *)
Inductive log_entry : Type :=
| LogWebDriverError (e : exn)            (* "WebDriver error: ..." *)
| LogProcessed (company_id : Z)          (* "Processed company ID: ..." *)
| LogErrorProcessing (url : str) (e : exn) (* "Error processing ...: ..." *)
| LogDatabaseError (e : exn)             (* "Database error: ..." *)
| LogErrorFetching (e : exn)             (* "Error fetching companies: ..." *)
| LogChatGPTError (e : exn)              (* "ChatGPT error: ..." *)
| LogUpdated (company_id : Z)            (* "Updated company ID: ..." *)
| LogErrorSaving (company_id : Z) (e : exn) (* "Error saving company ...: ..." *)
| LogNoCompanies                         (* "No companies to process" *)
| LogCompleted.                          (* "Processing completed" *)

(** ** The browser, as seen by one extractor process *)

(** Calls made on the selenium session, in order. *)
Inductive call : Type :=
| CallChrome                 (* webdriver.Chrome(options=options) *)
| CallGet (url : str)        (* driver.get(url) *)
| CallWait                   (* WebDriverWait(driver, 10).until(...) *)
| CallScroll                 (* driver.execute_script(...) *)
| CallFindElements           (* driver.find_elements(By.XPATH, '//div | //p') *)
| CallText (n : nat)         (* el.text of the n-th element *)
| CallQuit.                  (* driver.quit() *)

(** How the outside world answers each of those calls for one page:
    [None] is success, [Some e] raises [e]. *)
Record browser : Type := {
  on_chrome : option exn;
  on_get : option exn;
  on_wait : option exn;
  on_scroll : option exn;
  on_find_elements : exn + list (exn + str);
  on_quit : option exn
}.

(** The handle returned by [webdriver.Chrome]. *)
Inductive webdriver : Type := ChromeSession.

(** State of one [parse_company] process. *)
Record world : Type := {
  calls : list call;              (* calls made on the session so far *)
  queue : list item;              (* items this process has put, oldest first *)
  log : list log_entry;
  driver_var : option webdriver   (* the local [driver] of [get_webdriver] *)
}.

Definition new_world : world :=
  {| calls := []; queue := []; log := []; driver_var := None |}.

Definition record_call (c : call) : M world unit :=
  modify (fun w => {| calls := calls w ++ [c]; queue := queue w;
                      log := log w; driver_var := driver_var w |}).

Definition queue_put (x : item) : M world unit :=
  modify (fun w => {| calls := calls w; queue := queue w ++ [x];
                      log := log w; driver_var := driver_var w |}).

Definition logging (l : log_entry) : M world unit :=
  modify (fun w => {| calls := calls w; queue := queue w;
                      log := log w ++ [l]; driver_var := driver_var w |}).

Definition set_driver (d : option webdriver) : M world unit :=
  modify (fun w => {| calls := calls w; queue := queue w;
                      log := log w; driver_var := d |}).

Definition answer (o : option exn) : M world unit :=
  match o with
  | None => ret tt
  | Some e => raise e
  end.

Section Extractor.

Variable page : browser.

Definition Chrome : M world webdriver :=
  exec record_call CallChrome; exec answer (on_chrome page); ret ChromeSession.

Definition driver_get (driver : webdriver) (url : str) : M world unit :=
  exec record_call (CallGet url); answer (on_get page).

Definition wait_until_body (driver : webdriver) : M world unit :=
  exec record_call CallWait; answer (on_wait page).

Definition execute_script (driver : webdriver) : M world unit :=
  exec record_call CallScroll; answer (on_scroll page).

(** The elements are identified by their position in the result. *)
Definition find_elements (driver : webdriver) : M world (list (nat * (exn + str))) :=
  exec record_call CallFindElements;
  match on_find_elements page with
  | inl e => raise e
  | inr els => ret (imap (fun n t => (n, t)) els)
  end.

Definition el_text (el : nat * (exn + str)) : M world str :=
  exec record_call (CallText (fst el));
  match snd el with
  | inl e => raise e
  | inr t => ret t
  end.

Definition driver_quit (driver : webdriver) : M world unit :=
  exec record_call CallQuit; answer (on_quit page).

(** [el.text for el in elements if el.text.strip()], consumed by [join]:
    the property is read once for the test and once more for the value. *)
Fixpoint texts_of (elements : list (nat * (exn + str))) : M world (list str) :=
  match elements with
  | [] => ret []
  | el :: rest =>
      do t <- el_text el;
      if truthy (strip t)
      then do t' <- el_text el; do ts <- texts_of rest; ret (t' :: ts)
      else texts_of rest
  end.

(** The context manager [get_webdriver], with the body of the [with]
    statement running at the [yield]. *)
Definition get_webdriver {A} (body : webdriver -> M world A) : M world A :=
  exec set_driver None;
  try_finally
    (try_except is_WebDriverException
       (do driver <- Chrome;
        exec set_driver (Some driver);
        body driver)
       (fun e => exec logging (LogWebDriverError e); raise e))
    (do driver <- gets driver_var;
     match driver with
     | Some d => driver_quit d
     | None => ret tt
     end).

Definition parse_company (company_data : company) : M world unit :=
  let '(company_id, url) := company_data in
  try_except Exception
    (get_webdriver (fun driver =>
       exec driver_get driver url;
       exec wait_until_body driver;
       exec execute_script driver;
       do elements <- find_elements driver;
       do parts <- texts_of elements;
       let text := join [space] parts in
       let text := strip (replace [squote] [] (replace [dquote] [] text)) in
       exec queue_put (Envelope text company_id);
       logging (LogProcessed company_id)))
    (fun e =>
       exec logging (LogErrorProcessing url e);
       queue_put (Envelope ERROR company_id)).

End Extractor.

(** The items one extractor process puts on the queue, in order. *)
Definition emitted (page : browser) (c : company) : list item :=
  queue (snd (parse_company page c new_world)).

Definition good_page (texts : list str) : browser :=
  {| on_chrome := None; on_get := None; on_wait := None; on_scroll := None;
     on_find_elements := inr (map inr texts); on_quit := None |}.

(** ** The record store *)

(** One row of the [company] table, restricted to the columns the
    queries mention. *)
Record row : Type := {
  row_id : Z;
  homepageurl : str;
  description : str
}.

(** Calls made on the MySQL connector, in order. *)
Inductive db_call : Type :=
| DbPool                                   (* pooling.MySQLConnectionPool(...) *)
| DbGetConnection                          (* connection_pool.get_connection() *)
| DbCursor                                 (* conn.cursor() *)
| DbSelect (limit : Z)                     (* cursor.execute(QUERIES['select_company'], ...) *)
| DbFetchAll                               (* cursor.fetchall() *)
| DbUpdate (text : str) (company_id : Z)   (* cursor.execute(QUERIES['update_company'], ...) *)
| DbCommit                                 (* conn.commit() *)
| DbCursorClose                            (* cursor.close(), on leaving [with conn.cursor()] *)
| DbClose.                                 (* conn.close() *)

(** The server: the table, the updates of the open transaction, a
    schedule of faults (one entry is consumed by every connector call;
    [true] makes that call raise [Error]; an exhausted schedule means no
    more faults), and the calls received so far. *)
Record database : Type := {
  table : list row;
  uncommitted : list (str * Z);
  faults : list bool;
  trace : list db_call
}.

(** The handle returned by [get_connection]. *)
Inductive connection : Type := PooledConnection.

(** State of a process that talks to the database. *)
Record dbworld : Type := {
  db : database;
  dlog : list log_entry;
  conn_var : option connection   (* is [conn] bound in [get_db_connection]? *)
}.

Definition with_db (f : database -> database) (w : dbworld) : dbworld :=
  {| db := f (db w); dlog := dlog w; conn_var := conn_var w |}.

Definition dlogging (l : log_entry) : M dbworld unit :=
  modify (fun w => {| db := db w; dlog := dlog w ++ [l]; conn_var := conn_var w |}).

Definition set_conn (c : option connection) : M dbworld unit :=
  modify (fun w => {| db := db w; dlog := dlog w; conn_var := c |}).

(** Every connector call is recorded and then consults the schedule. *)
Definition connector (c : db_call) : M dbworld unit :=
  fun w =>
    let d := db w in
    let w' := with_db (fun _ => {| table := table d; uncommitted := uncommitted d;
                                   faults := tail (faults d);
                                   trace := trace d ++ [c] |}) w in
    match faults d with
    | true :: _ => (inl Error, w')
    | _ => (inr tt, w')
    end.

(** [UPDATE company SET description = text WHERE id = company_id] *)
Definition apply_update (t : list row) (u : str * Z) : list row :=
  map (fun r => if row_id r =? snd u
                then {| row_id := row_id r; homepageurl := homepageurl r;
                        description := fst u |}
                else r) t.

Definition str_empty (s : str) : bool := negb (truthy s).

(** [SELECT id, homepageurl FROM company WHERE description = '' LIMIT n].
    The query has no [ORDER BY]: which rows the server keeps, and in
    what order, is its own choice.  That choice is the order of the list
    [table], which stands for the rows as the server produces them;
    nothing is assumed about it. *)
Definition select_company (t : list row) (n : Z) : list company :=
  map (fun r => (row_id r, homepageurl r))
      (take (Z.to_nat n) (filter (fun r => str_empty (description r) = true) t)).

Definition pool_create : M dbworld unit := connector DbPool.

Definition get_connection : M dbworld connection :=
  exec connector DbGetConnection; ret PooledConnection.

Definition cursor (conn : connection) : M dbworld unit := connector DbCursor.

Definition cursor_close : M dbworld unit := connector DbCursorClose.

(** [with conn.cursor() as cursor: body]: the cursor is closed when the
    block is left, by its end, by [return] or by an exception. *)
Definition with_cursor {A} (conn : connection) (body : M dbworld A) : M dbworld A :=
  exec cursor conn;
  try_finally body cursor_close.

(** [cursor.execute] of the select: the result set waits in the cursor.
    A negative [LIMIT] is rejected by the server. *)
Definition execute_select (n : Z) : M dbworld (list company) :=
  exec connector (DbSelect n);
  if n <? 0 then raise Error
  else do t <- gets (fun w => table (db w)); ret (select_company t n).

(** [cursor.fetchall()] hands over the result set of the last [execute]. *)
Definition fetchall (result : list company) : M dbworld (list company) :=
  exec connector DbFetchAll; ret result.

Definition execute_update (text : str) (company_id : Z) : M dbworld unit :=
  exec connector (DbUpdate text company_id);
  modify (with_db (fun d => {| table := table d;
                               uncommitted := uncommitted d ++ [(text, company_id)];
                               faults := faults d; trace := trace d |})).

Definition commit (conn : connection) : M dbworld unit :=
  exec connector DbCommit;
  modify (with_db (fun d => {| table := foldl apply_update (table d) (uncommitted d);
                               uncommitted := [];
                               faults := faults d; trace := trace d |})).

(** Closing gives the connection back and drops an open transaction. *)
Definition conn_close (conn : connection) : M dbworld unit :=
  fun w =>
    let w' := with_db (fun d => {| table := table d; uncommitted := [];
                                   faults := faults d; trace := trace d |}) w in
    connector DbClose w'.

(** The context manager [get_db_connection]. *)
Definition get_db_connection {A} (body : connection -> M dbworld A) : M dbworld A :=
  exec set_conn None;
  try_finally
    (try_except is_Error
       (exec pool_create;
        do conn <- get_connection;
        exec set_conn (Some conn);
        body conn)
       (fun e => exec dlogging (LogDatabaseError e); raise e))
    (do conn <- gets conn_var;
     match conn with
     | Some c => conn_close c
     | None => ret tt
     end).

Record config : Type := {
  MAX_THREADS : Z;
  BATCH_SIZE : Z
}.

Definition fetch_companies (CONFIG : config) : M dbworld (list company) :=
  try_except is_Error
    (get_db_connection (fun conn =>
       with_cursor conn
         (do result <- execute_select (BATCH_SIZE CONFIG);
          fetchall result)))
    (fun e => exec dlogging (LogErrorFetching e); ret []).

(** ** Enrichment *)

(** [process_with_chatgpt]: [chat] stands for the completion request, as
    a function of the part of the text that enters the prompt; [None] is
    Python's [None]. *)
Definition process_with_chatgpt (chat : str -> exn + str) (text : str)
  : M dbworld (option str) :=
  if negb (truthy text) || bool_decide (text = ERROR) then ret None
  else
    try_except Exception
      (match chat (take 3000 text) with
       | inl e => raise e
       | inr content => ret (Some content)
       end)
      (fun e => exec dlogging (LogChatGPTError e); ret None).

(** ** The aggregator *)

(** One turn of the [while True] loop of [save_results], after
    [result_queue.get()] returned [x]; [true] is [break].  [enrich]
    computes [processed_text]. *)
Definition save_item_with (enrich : str -> M dbworld (option str)) (x : item)
  : M dbworld bool :=
  match x with
  | STOP => ret true
  | Envelope text company_id =>
      do processed_text <- enrich text;
      match processed_text with
      | Some processed =>
          if truthy processed then
            exec try_except is_Error
              (get_db_connection (fun conn =>
                 with_cursor conn
                   (exec execute_update processed company_id;
                    exec commit conn;
                    dlogging (LogUpdated company_id))))
              (fun e => dlogging (LogErrorSaving company_id e));
            ret false
          else ret false
      | None => ret false
      end
  end.

(** [processed_text = text], the line the program runs. *)
Definition stub (text : str) : M dbworld (option str) := ret (Some text).

Definition save_item : item -> M dbworld bool := save_item_with stub.

(** How a [while True] loop around a blocking [get] ends. *)
Inductive loop_end : Type :=
| Returned              (* left through [break] *)
| Blocked               (* [result_queue.get()] waits on an empty queue *)
| Raised (e : exn).

(** [save_results] run against a queue holding [q] to which nothing is
    added any more; the queue that is left is returned as well. *)
Fixpoint save_results (q : list item) (w : dbworld) : loop_end * list item * dbworld :=
  match q with
  | [] => (Blocked, [], w)
  | x :: rest =>
      match save_item x w with
      | (inl e, w') => (Raised e, rest, w')
      | (inr true, w') => (Returned, rest, w')
      | (inr false, w') => save_results rest w'
      end
  end.

(** The [UPDATE] statements the connector was asked to execute. *)
Definition writes (d : database) : list (str * Z) :=
  omap (fun c => match c with DbUpdate t i => Some (t, i) | _ => None end) (trace d).

Definition fresh_db (t : list row) (f : list bool) : database :=
  {| table := t; uncommitted := []; faults := f; trace := [] |}.

Definition saver_world (d : database) : dbworld :=
  {| db := d; dlog := []; conn_var := None |}.

(** ** The pipeline of [main] *)

(** An extractor process: the items it has yet to put, or exited. *)
Inductive proc : Type :=
| Running (pending : list item)
| Exited.

Inductive saver_status : Type :=
| NotStarted
| Consuming               (* inside the [while True] loop *)
| Stopped                 (* left the loop through [break] *)
| Died (e : exn).         (* ended by an uncaught exception *)

(** Where [main] stands.  [processes] holds the indices of the [Process]
    objects of the current round, in start order. *)
Inductive pc : Type :=
| AtFetch                                              (* companies = fetch_companies() *)
| AtLoop (todo : list company) (processes : list nat)  (* for company in companies: *)
| AtRoundJoin (todo : list company) (waiting : list nat) (* for p in processes: p.join() *)
| AtFinalJoin (waiting : list nat)                     (* for p in processes: p.join() *)
| AtStop                                               (* result_queue.put("STOP") *)
| AtSaverJoin                                          (* saver_process.join() *)
| Finished.

Record system : Type := {
  main_pc : pc;
  main_log : list log_entry;
  procs : list proc;          (* the extractor processes, by start order *)
  result_queue : list item;   (* the queue, oldest item first *)
  history : list item;        (* every item ever put, in order *)
  received : list item;       (* every item [save_results] got, in order *)
  saver : saver_status;
  saver_log : list log_entry;
  sdb : database
}.

(** Who moves next. *)
Inductive action : Type :=
| Main
| Extractor (pid : nat)
| Saver.

Definition is_running (p : proc) : bool :=
  match p with Running _ => true | Exited => false end.

(** Extractor processes started and not yet terminated. *)
Definition active (s : system) : nat := length (List.filter is_running (procs s)).

Section Pipeline.

Variable CONFIG : config.

(** What the n-th started extractor meets on the web. *)
Variable web : nat -> browser.

Definition init (d : database) : system :=
  {| main_pc := AtFetch; main_log := []; procs := []; result_queue := [];
     history := []; received := []; saver := NotStarted; saver_log := [];
     sdb := d |}.

Definition goto (p : pc) (s : system) : system :=
  {| main_pc := p; main_log := main_log s; procs := procs s;
     result_queue := result_queue s; history := history s;
     received := received s; saver := saver s; saver_log := saver_log s;
     sdb := sdb s |}.

Definition put (x : item) (s : system) : system :=
  {| main_pc := main_pc s; main_log := main_log s; procs := procs s;
     result_queue := result_queue s ++ [x]; history := history s ++ [x];
     received := received s; saver := saver s; saver_log := saver_log s;
     sdb := sdb s |}.

Definition set_procs (l : list proc) (s : system) : system :=
  {| main_pc := main_pc s; main_log := main_log s; procs := l;
     result_queue := result_queue s; history := history s;
     received := received s; saver := saver s; saver_log := saver_log s;
     sdb := sdb s |}.

Definition main_logging (l : log_entry) (s : system) : system :=
  {| main_pc := main_pc s; main_log := main_log s ++ [l]; procs := procs s;
     result_queue := result_queue s; history := history s;
     received := received s; saver := saver s; saver_log := saver_log s;
     sdb := sdb s |}.

(** [p.join()] returns once process [p] has terminated. *)
Definition joinable (s : system) (p : nat) : bool :=
  match procs s !! p with
  | Some Exited => true
  | _ => false
  end.

Definition main_step (s : system) : option system :=
  match main_pc s with
  | AtFetch =>
      let '(r, w) := fetch_companies CONFIG
                       {| db := sdb s; dlog := main_log s; conn_var := None |} in
      let s' := {| main_pc := Finished; main_log := dlog w; procs := procs s;
                   result_queue := result_queue s; history := history s;
                   received := received s; saver := saver s;
                   saver_log := saver_log s; sdb := db w |} in
      match r with
      | inl _ => Some s'
      | inr [] => Some (main_logging LogNoCompanies s')
      | inr companies =>
          (* saver_process.start() *)
          Some {| main_pc := AtLoop companies []; main_log := main_log s';
                  procs := procs s'; result_queue := result_queue s';
                  history := history s'; received := received s';
                  saver := Consuming; saver_log := saver_log s'; sdb := sdb s' |}
      end
  | AtLoop (company :: todo) processes =>
      (* p = Process(target=parse_company, ...); processes.append(p); p.start() *)
      let p := length (procs s) in
      let s' := set_procs (procs s ++ [Running (emitted (web p) company)]) s in
      let processes' := processes ++ [p] in
      if Z.of_nat (length processes') >=? MAX_THREADS CONFIG
      then Some (goto (AtRoundJoin todo processes') s')
      else Some (goto (AtLoop todo processes') s')
  | AtLoop [] processes => Some (goto (AtFinalJoin processes) s)
  | AtRoundJoin todo (p :: waiting) =>
      if joinable s p then Some (goto (AtRoundJoin todo waiting) s) else None
  | AtRoundJoin todo [] => Some (goto (AtLoop todo []) s)
  | AtFinalJoin (p :: waiting) =>
      if joinable s p then Some (goto (AtFinalJoin waiting) s) else None
  | AtFinalJoin [] => Some (goto AtStop s)
  | AtStop => Some (goto AtSaverJoin (put STOP s))
  | AtSaverJoin =>
      match saver s with
      | Stopped | Died _ => Some (main_logging LogCompleted (goto Finished s))
      | _ => None
      end
  | Finished => None
  end.

(** An extractor puts its next item, or terminates when none is left. *)
Definition extractor_step (pid : nat) (s : system) : option system :=
  match procs s !! pid with
  | Some (Running (x :: rest)) =>
      Some (put x (set_procs (<[pid := Running rest]> (procs s)) s))
  | Some (Running []) => Some (set_procs (<[pid := Exited]> (procs s)) s)
  | _ => None
  end.

(** One turn of the loop of [save_results]: enabled when the queue
    holds an item. *)
Definition saver_step (s : system) : option system :=
  match saver s, result_queue s with
  | Consuming, x :: rest =>
      let '(r, w) := save_item x {| db := sdb s; dlog := saver_log s; conn_var := None |} in
      Some {| main_pc := main_pc s; main_log := main_log s; procs := procs s;
              result_queue := rest; history := history s;
              received := received s ++ [x];
              saver := match r with
                       | inl e => Died e
                       | inr true => Stopped
                       | inr false => Consuming
                       end;
              saver_log := dlog w; sdb := db w |}
  | _, _ => None
  end.

Definition step (a : action) (s : system) : option system :=
  match a with
  | Main => main_step s
  | Extractor pid => extractor_step pid s
  | Saver => saver_step s
  end.

(** A run under a schedule; [None] when the schedule picks a process
    that cannot move. *)
Fixpoint run (sched : list action) (s : system) : option system :=
  match sched with
  | [] => Some s
  | a :: sched' =>
      match step a s with
      | Some s' => run sched' s'
      | None => None
      end
  end.

End Pipeline.

(** ** Scenarios *)

(** The first scenario of the specification: two records, two
    processes at a time, the second page fails to load. *)
Definition bad_page : browser :=
  {| on_chrome := None; on_get := Some WebDriverException; on_wait := None;
     on_scroll := None; on_find_elements := inr []; on_quit := None |}.

Definition scenario_web (n : nat) : browser :=
  match n with
  | O => good_page [py "He said " ++ [dquote] ++ py "hi" ++ [dquote]]
  | _ => bad_page
  end.

Definition scenario_db : database :=
  fresh_db [ {| row_id := 1; homepageurl := py "https://a.test"; description := [] |};
             {| row_id := 2; homepageurl := py "https://bad.test"; description := [] |} ] [].

Definition scenario_config : config := {| MAX_THREADS := 2; BATCH_SIZE := 400 |}.

Definition scenario_schedule : list action :=
  [Main; Main; Main; Extractor 0; Extractor 1; Extractor 0; Extractor 1;
   Main; Main; Main; Main; Main; Main; Saver; Saver; Saver; Main].

(** * Part II: the vocabulary of the properties

    ** Text, in the words of the specification *)

Module Text.

(** Empty or made of whitespace only. *)
Definition blank (t : str) : bool := forallb isspace t.

(** Neither kind of quote. *)
Definition not_quote (c : N) : bool := negb ((c =? dquote) || (c =? squote))%N.

(** Every double and single quote removed. *)
Definition remove_quotes (s : str) : str := List.filter not_quote s.

(** [r] is [s] without its leading and trailing whitespace. *)
Definition trimmed (s r : str) : Prop :=
  exists lead trail,
    s = lead ++ r ++ trail
    /\ forallb isspace lead = true /\ forallb isspace trail = true
    /\ (forall c, head r = Some c -> isspace c = false)
    /\ (forall c, last r = Some c -> isspace c = false).

(** Step 4 and step 5 of the extractor, in the specification's words. *)
Definition visible_text (texts : list str) : str :=
  strip (remove_quotes (join [space] (List.filter (fun t => negb (blank t)) texts))).

End Text.

Import Text.

(** ** Observations on one extractor and on the store *)

Definition text_call (c : call) : Prop :=
  match c with CallText _ => True | _ => False end.

(** Number of [driver.quit()] calls. *)
Definition quits (cs : list call) : nat :=
  length (List.filter (fun c => match c with CallQuit => true | _ => false end) cs).

(** A page on which every step up to the element texts succeeds. *)
Definition loaded_page (texts : list str) (quit : option exn) : browser :=
  {| on_chrome := None; on_get := None; on_wait := None; on_scroll := None;
     on_find_elements := inr (map inr texts); on_quit := quit |}.

Definition is_envelope_of (company_id : Z) (x : item) : Prop :=
  match x with
  | Envelope _ i => i = company_id
  | STOP => False
  end.

(** Connections asked of the store. *)
Definition attempts (d : database) : nat :=
  length (List.filter (fun c => match c with DbPool => true | _ => false end) (trace d)).

(** The schedule lets the next [n] connector calls through. *)
Definition quiet (n : nat) (f : list bool) : bool := forallb negb (take n f).

(** The ids of the envelopes that carry a text to persist. *)
Definition wanted (q : list item) : list Z :=
  omap (fun x => match x with
                 | Envelope t i => if truthy t then Some i else None
                 | STOP => None
                 end) q.

(** ** The invariant of the pipeline *)

(** The processes [main] has started and not yet joined. *)
Definition waiting (p : pc) : list nat :=
  match p with
  | AtLoop _ processes => processes
  | AtRoundJoin _ w => w
  | AtFinalJoin w => w
  | _ => []
  end.

(** Has [main] put ["STOP"]?  [Finished] is reached without it only on
    an empty batch, when the saver was never started. *)
Definition stop_sent (p : pc) (sv : saver_status) : bool :=
  match p, sv with
  | AtSaverJoin, _ => true
  | Finished, NotStarted => false
  | Finished, _ => true
  | _, _ => false
  end.

(** ["STOP"] is the last item of [h] and occurs nowhere else. *)
Definition ends_with_stop (h : list item) : Prop :=
  exists envs, h = envs ++ [STOP] /\ STOP ∉ envs.

Definition no_stop_pending (p : proc) : Prop :=
  match p with
  | Running l => STOP ∉ l
  | Exited => True
  end.

Section InvariantDef.

Variable CONFIG : config.

(** The bound on a round: [MAX_THREADS], or one when it is not
    positive (every process is then joined right after its start). *)
Definition limit : Z := Z.max (MAX_THREADS CONFIG) 1.

Record invariant (s : system) : Prop := {
  inv_waiting :
    waiting (main_pc s)
    = seq (length (procs s) - length (waiting (main_pc s)))
          (length (waiting (main_pc s)));
  inv_started : (length (waiting (main_pc s)) <= length (procs s))%nat;
  inv_joined :
    Forall (fun p => p = Exited)
           (take (length (procs s) - length (waiting (main_pc s))) (procs s));
  inv_round : Z.of_nat (length (waiting (main_pc s))) <= limit;
  inv_loop : forall todo ps,
      main_pc s = AtLoop todo ps -> Z.of_nat (length ps) < limit;
  inv_fifo : history s = received s ++ result_queue s;
  inv_stop :
    if stop_sent (main_pc s) (saver s) then ends_with_stop (history s)
    else STOP ∉ history s;
  inv_pending : Forall no_stop_pending (procs s);
  inv_fetch : main_pc s = AtFetch -> saver s = NotStarted;
  inv_saver :
    match saver s with
    | NotStarted =>
        (main_pc s = AtFetch \/ main_pc s = Finished)
        /\ procs s = [] /\ history s = [] /\ writes (sdb s) = []
    | Consuming => STOP ∉ received s
    | Stopped => ends_with_stop (received s)
    | Died _ => False
    end;
  inv_txn : uncommitted (sdb s) = [];
  inv_finished : main_pc s = Finished -> saver s = NotStarted \/ saver s = Stopped
}.

End InvariantDef.

(** ** Work left in a run *)

Definition proc_measure (p : proc) : nat :=
  match p with
  | Running l => 2 * length l + 1
  | Exited => 0
  end.

Definition pc_measure (p : pc) : nat :=
  match p with
  | AtFetch => 0
  | AtLoop todo ps => 9 * length todo + 2 * length ps + 5
  | AtRoundJoin todo w => 9 * length todo + 2 * length w + 6
  | AtFinalJoin w => 2 * length w + 4
  | AtStop => 3
  | AtSaverJoin => 1
  | Finished => 0
  end.

Definition procs_measure (l : list proc) : nat := sum_list_with proc_measure l.

Section MeasureDef.

Variable CONFIG : config.

(** Work left: what [main] has yet to do, what the extractors have
    yet to put, and what waits in the queue. *)
Definition main_measure (s : system) : nat :=
  match main_pc s with
  | AtFetch =>
      match fst (fetch_companies CONFIG
                   {| db := sdb s; dlog := main_log s; conn_var := None |}) with
      | inr rows => 9 * length rows + 7
      | inl _ => 7
      end
  | p => pc_measure p
  end.

Definition measure (s : system) : nat :=
  (main_measure s + procs_measure (procs s) + length (result_queue s))%nat.

End MeasureDef.

(** ** Counting the termination signal *)

Definition is_stop (x : item) : bool :=
  match x with STOP => true | Envelope _ _ => false end.

Definition is_envelope (x : item) : bool := negb (is_stop x).


(** ** Further observations on the store, the extractor and the run *)

(** Number of [conn.close()] calls. *)
Definition closes (d : database) : nat :=
  length (List.filter (fun c => match c with DbClose => true | _ => false end) (trace d)).

(** How many calls one turn of [save_results] makes on the connector
    for the envelope [(text, company_id)], when the schedule of faults
    it meets is [f]. *)
Definition turn_calls (text : str) (company_id : Z) (f : list bool) : nat :=
  length (trace (db (snd (save_item (Envelope text company_id)
                                    (saver_world (fresh_db [] f)))))).

(** The rows [select_company] chooses from, in table order. *)
Definition candidates (t : list row) : list company :=
  map (fun r => (row_id r, homepageurl r))
      (filter (fun r => str_empty (description r) = true) t).

(** The updates the loop of [save_results] is asked for by a queue:
    one for every envelope with a text, in queue order. *)
Definition offered (q : list item) : list (str * Z) :=
  omap (fun x => match x with
                 | Envelope t i => if truthy t then Some (t, i) else None
                 | STOP => None
                 end) q.

(** The element texts of a page, when every one can be read. *)
Fixpoint all_texts (els : list (exn + str)) : option (list str) :=
  match els with
  | [] => Some []
  | inl _ :: _ => None
  | inr t :: rest => option_map (cons t) (all_texts rest)
  end.

(** The texts [parse_company] collects, when no step before the
    [put] raises. *)
Definition page_texts (page : browser) : option (list str) :=
  match on_chrome page, on_get page, on_wait page, on_scroll page,
        on_find_elements page with
  | None, None, None, None, inr els => all_texts els
  | _, _, _, _, _ => None
  end.

(** The two cleaning steps of [parse_company]. *)
Definition sanitize (text : str) : str :=
  strip (replace [squote] [] (replace [dquote] [] text)).

(** [t'] has the rows of [t], with the same ids and urls in the same
    places, and the same descriptions except for the ids of [ids]. *)
Definition kept (ids : list Z) (t t' : list row) : Prop :=
  length t' = length t
  /\ forall k r, t !! k = Some r ->
       exists r', t' !! k = Some r' /\ row_id r' = row_id r
                  /\ homepageurl r' = homepageurl r
                  /\ (~ In (row_id r) ids -> description r' = description r).





(** * Part III: proofs

    ** Strings: the code against the words of the specification *)

Example replace_quotes :
  replace [squote] [] (replace [dquote] []
    (py "He said " ++ [dquote] ++ py "hi" ++ [dquote] ++ py " and 'bye'"))
  = py "He said hi and bye".
Proof. reflexivity. Qed.

Example emitted_good :
  emitted (good_page [py "  "; py "He said " ++ [dquote] ++ py "hi" ++ [dquote]; []; py " ok "])
          (1, py "https://a.test")
  = [Envelope (py "He said hi  ok") 1].
Proof. reflexivity. Qed.

Example scenario_run :
  option_map (fun s => (main_pc s, table (sdb s), writes (sdb s)))
             (run scenario_config scenario_web scenario_schedule (init scenario_db))
  = Some (Finished,
          [ {| row_id := 1; homepageurl := py "https://a.test"; description := py "He said hi" |};
            {| row_id := 2; homepageurl := py "https://bad.test"; description := py "ERROR" |} ],
          [(py "He said hi", 1); (py "ERROR", 2)]).
Proof. vm_compute. reflexivity. Qed.

Lemma strip_prefix_one (q c : N) (s : str) :
  strip_prefix [q] (c :: s) = if (q =? c)%N then Some s else None.
Proof. simpl. destruct (q =? c)%N; reflexivity. Qed.

Lemma replace_from_one (q : N) (fuel : nat) :
  forall s : str, (length s <= fuel)%nat ->
    replace_from fuel [q] [] s = List.filter (fun c => negb (c =? q)%N) s.
Proof.
  induction fuel as [|fuel IH]; intros s Hlen.
  - destruct s; [reflexivity | simpl in Hlen; lia].
  - destruct s as [|c s]; [reflexivity|].
    cbn [replace_from]. rewrite strip_prefix_one. simpl in Hlen.
    cbn [List.filter]. rewrite (N.eqb_sym c q).
    destruct (q =? c)%N; cbn [negb app]; rewrite IH by lia; reflexivity.
Qed.

Lemma replace_one (q : N) (s : str) :
  replace [q] [] s = List.filter (fun c => negb (c =? q)%N) s.
Proof. unfold replace. apply replace_from_one. lia. Qed.

Lemma replace_both_quotes (s : str) :
  replace [squote] [] (replace [dquote] [] s) = remove_quotes s.
Proof.
  rewrite !replace_one. unfold remove_quotes, not_quote.
  induction s as [|c s IH]; [reflexivity|].
  cbn [List.filter].
  destruct (c =? dquote)%N eqn:Hd; cbn [negb orb].
  - exact IH.
  - cbn [List.filter]. destruct (c =? squote)%N; cbn [negb]; rewrite IH; reflexivity.
Qed.

Lemma lstrip_split (s : str) :
  exists lead, s = lead ++ lstrip s /\ forallb isspace lead = true
               /\ forall c, head (lstrip s) = Some c -> isspace c = false.
Proof.
  induction s as [|c s (lead & Heq & Hsp & Hhd)].
  - exists []. repeat split. intros c Hc. discriminate.
  - cbn [lstrip]. destruct (isspace c) eqn:Hc.
    + exists (c :: lead). cbn [forallb app]. rewrite Hc, Hsp, <- Heq. auto.
    + exists []. repeat split. intros c' Hc'. simpl in Hc'. congruence.
Qed.

Lemma lstrip_blank (s : str) : lstrip s = [] <-> blank s = true.
Proof.
  unfold blank. induction s as [|c s IH]; [tauto|].
  cbn [lstrip forallb]. destruct (isspace c); cbn [andb]; [exact IH|].
  split; discriminate.
Qed.

Lemma forallb_rev {A} (f : A -> bool) (l : list A) : forallb f (rev l) = forallb f l.
Proof.
  induction l as [|x l IH]; [reflexivity|].
  cbn [rev forallb]. rewrite forallb_app, IH. cbn [forallb].
  destruct (f x), (forallb f l); reflexivity.
Qed.

Lemma head_rev_last {A} (l : list A) : head (rev l) = last l.
Proof.
  induction l as [|x l IH] using rev_ind; [reflexivity|].
  rewrite rev_unit, last_snoc. reflexivity.
Qed.

(** [strip] removes exactly the surrounding whitespace. *)
Lemma strip_trimmed (s : str) : trimmed s (strip s).
Proof.
  unfold trimmed, strip, rstrip.
  destruct (lstrip_split s) as (lead & Heq & Hlead & Hhead).
  destruct (lstrip_split (rev (lstrip s))) as (tl & Heq' & Htl & Hlast).
  exists lead, (rev tl).
  assert (Hs : lstrip s = rev (lstrip (rev (lstrip s))) ++ rev tl).
  { rewrite <- rev_app_distr, <- Heq', rev_involutive. reflexivity. }
  repeat split.
  - rewrite <- Hs. exact Heq.
  - exact Hlead.
  - rewrite forallb_rev. exact Htl.
  - intros c Hc.
    destruct (lstrip (rev (lstrip s))) as [|x r] eqn:Hr; [discriminate|].
    apply Hhead. rewrite Hs. destruct (rev (x :: r)); [discriminate|]. exact Hc.
  - intros c Hc. apply Hlast. rewrite <- head_rev_last, rev_involutive in Hc. exact Hc.
Qed.

(** The test [if el.text.strip()] skips exactly the blank texts. *)
Lemma truthy_strip (t : str) : truthy (strip t) = negb (blank t).
Proof.
  unfold strip, rstrip.
  destruct (blank t) eqn:Hb.
  - apply lstrip_blank in Hb. rewrite Hb. reflexivity.
  - destruct (lstrip (rev (lstrip t))) as [|x r] eqn:Hr.
    + apply lstrip_blank in Hr. unfold blank in Hr. rewrite forallb_rev in Hr.
      destruct (lstrip_split t) as (lead & Heq & Hlead & _).
      unfold blank in Hb. rewrite Heq, forallb_app, Hlead, Hr in Hb. discriminate.
    + destruct (rev (x :: r)) eqn:Hrev; [|reflexivity].
      apply (f_equal (@length N)) in Hrev. rewrite length_rev in Hrev. discriminate.
Qed.

(** ** The extractor *)

(** Reading the element texts touches neither the queue nor the log nor
    the [driver] variable, and makes [el.text] calls only. *)
Lemma texts_of_frame (els : list (nat * (exn + str))) :
  forall (w : world) r w', texts_of els w = (r, w') ->
    queue w' = queue w /\ log w' = log w /\ driver_var w' = driver_var w
    /\ exists cs, calls w' = calls w ++ cs /\ Forall text_call cs.
Proof.
  induction els as [|[n [e|t]] els IH]; intros w r w' H.
  - inversion H; subst. repeat split. exists []. rewrite app_nil_r. auto.
  - inversion H; subst. cbn. repeat split. exists [CallText n]. split; [reflexivity|].
    constructor; [exact I | constructor].
  - cbn in H. destruct (truthy (strip t)).
    + cbn in H. unfold bind in H.
      match type of H with context [texts_of els ?w0] =>
        destruct (texts_of els w0) as [r0 w0'] eqn:H0 end.
      apply IH in H0. cbn in H0. destruct H0 as (Hq & Hl & Hd & cs & Hc & Hcs).
      assert (w' = w0') by (destruct r0; inversion H; reflexivity). subst w0'.
      clear H.
      repeat split; try assumption.
      exists (CallText n :: CallText n :: cs). split.
      * rewrite Hc, <- !app_assoc. reflexivity.
      * repeat constructor; assumption.
    + apply IH in H. cbn in H. destruct H as (Hq & Hl & Hd & cs & Hc & Hcs).
      repeat split; try assumption.
      exists (CallText n :: cs). split.
      * rewrite Hc, <- !app_assoc. reflexivity.
      * constructor; [exact I | assumption].
Qed.

Arguments ERROR : simpl never.
Arguments replace : simpl never.
Arguments strip : simpl never.
Arguments join : simpl never.

Ltac unfold_extractor :=
  unfold parse_company, get_webdriver, Chrome, driver_get, wait_until_body,
    execute_script, find_elements, driver_quit, try_except, try_finally, bind,
    record_call, set_driver, logging, queue_put, answer, modify, gets, ret, raise,
    Exception, new_world.

(** Case analysis on the answers of the browser. *)
Ltac browser_cases :=
  repeat match goal with
    | |- context [match ?o with Some _ => _ | None => _ end] =>
        is_var o; destruct o; cbn
    | |- context [match ?o with inl _ => _ | inr _ => _ end] =>
        is_var o; destruct o; cbn
    | |- context [if is_WebDriverException ?e then _ else _] =>
        destruct (is_WebDriverException e); cbn
    | H : driver_var ?w = _ |- context [driver_var ?w] => rewrite H; cbn
    | H : queue ?w = _ |- context [queue ?w] => rewrite H; cbn
    | H : log ?w = _ |- context [log ?w] => rewrite H; cbn
    | H : calls ?w = _ |- context [calls ?w] => rewrite H; cbn
    | |- context [texts_of ?l ?w] =>
        let H := fresh "Htexts" in
        destruct (texts_of l w) as [? ?] eqn:H;
        apply texts_of_frame in H; cbn in H;
        let Hq := fresh "Hq" in let Hl := fresh "Hl" in let Hd := fresh "Hd" in
        let cs := fresh "cs" in let Hc := fresh "Hc" in let Hcs := fresh "Hcs" in
        destruct H as (Hq & Hl & Hd & cs & Hc & Hcs);
        rewrite ?Hq, ?Hl, ?Hd, ?Hc; cbn
    end.

Lemma quits_app (a b : list call) : quits (a ++ b) = (quits a + quits b)%nat.
Proof. unfold quits. rewrite List.filter_app, length_app. reflexivity. Qed.

Lemma quits_text_calls (cs : list call) : Forall text_call cs -> quits cs = O.
Proof.
  induction 1 as [|c cs Hc _ IH]; [reflexivity|].
  destruct c; try contradiction. exact IH.
Qed.

(** Every way one invocation of [parse_company] can go.  It returns
    normally.  It puts the failure marker alone, or the text alone when
    [driver.quit()] succeeds, or the text and then the marker when
    [driver.quit()] raises.  It calls [driver.quit()] once, as the last
    call, exactly when [webdriver.Chrome] returned a session. *)
Lemma parse_company_outcome (page : browser) (company_id : Z) (url : str) :
  exists w, parse_company page (company_id, url) new_world = (inr tt, w)
    /\ (queue w = [Envelope ERROR company_id]
        \/ (exists text, queue w = [Envelope text company_id] /\ on_quit page = None)
        \/ (exists text, queue w = [Envelope text company_id; Envelope ERROR company_id]
                         /\ on_quit page <> None))
    /\ match on_chrome page with
       | Some _ => calls w = [CallChrome]
       | None => head (calls w) = Some CallChrome /\ last (calls w) = Some CallQuit
                 /\ quits (calls w) = 1%nat
       end.
Proof.
  destruct page as [oc og ow os ofe oq].
  unfold_extractor. cbn. browser_cases.
  all: eexists; (split; [reflexivity|]); cbn.
  all: split;
    [ first [ left; reflexivity
            | right; left; eexists; split; reflexivity
            | right; right; eexists; split; [reflexivity | discriminate] ]
    | try (repeat split; reflexivity) ].
  all: split; [reflexivity|]; split;
    [ change (last ((CallFindElements :: cs) ++ [CallQuit]) = Some CallQuit);
      apply last_snoc
    | change (quits (cs ++ [CallQuit]) = 1%nat);
      rewrite quits_app, (quits_text_calls cs Hcs); reflexivity ].
Qed.

(** When every element answers with a text, the generator yields the
    texts that are not blank, in page order. *)
Lemma texts_of_ok (texts : list str) :
  forall (f : nat -> exn + str -> nat * (exn + str)) (w : world),
    (forall n t, snd (f n t) = t) ->
    exists cs,
      texts_of (imap f (map inr texts)) w
      = (inr (List.filter (fun t => negb (blank t)) texts),
         {| calls := calls w ++ cs; queue := queue w; log := log w;
            driver_var := driver_var w |})
      /\ Forall text_call cs.
Proof.
  induction texts as [|t texts IH]; intros f w Hf.
  - exists []. rewrite app_nil_r. destruct w; split; [reflexivity | constructor].
  - cbn [map imap texts_of List.filter].
    unfold el_text, bind, record_call, modify, ret.
    rewrite Hf. cbv beta iota. rewrite truthy_strip. destruct (negb (blank t)).
    + cbv beta iota.
      match goal with |- context [texts_of _ ?w0] =>
        destruct (IH (f ∘ S) w0) as (cs & Heq & Hcs); [intros; apply Hf|] end.
      exists (CallText (fst (f O (inr t))) :: CallText (fst (f O (inr t))) :: cs).
      rewrite Heq. cbn. split.
      * rewrite <- !app_assoc. reflexivity.
      * repeat constructor; assumption.
    + match goal with |- context [texts_of _ ?w0] =>
        destruct (IH (f ∘ S) w0) as (cs & Heq & Hcs); [intros; apply Hf|] end.
      exists (CallText (fst (f O (inr t))) :: cs).
      rewrite Heq. cbn. split.
      * rewrite <- !app_assoc. reflexivity.
      * constructor; [exact I | assumption].
Qed.

(** On such a page the text is put first; the marker follows it exactly
    when [driver.quit()] raises. *)
Lemma emitted_loaded (texts : list str) (quit : option exn) (company_id : Z) (url : str) :
  emitted (loaded_page texts quit) (company_id, url)
  = Envelope (visible_text texts) company_id
      :: match quit with
         | Some _ => [Envelope ERROR company_id]
         | None => []
         end.
Proof.
  unfold emitted, loaded_page. unfold_extractor. cbn.
  match goal with |- context [texts_of ?l ?w] =>
    destruct (texts_of_ok texts (fun n t => (n, t)) w) as (cs & Heq & _);
      [reflexivity|]; rewrite Heq end.
  cbn. unfold visible_text. rewrite replace_both_quotes.
  destruct quit as [e|]; cbn; [|reflexivity].
  destruct (is_WebDriverException e); reflexivity.
Qed.

(** An extractor puts one or two items, all of them envelopes for its
    own record. *)
Lemma emitted_bounds (page : browser) (c : company) :
  (1 <= length (emitted page c) <= 2)%nat
  /\ Forall (is_envelope_of (fst c)) (emitted page c).
Proof.
  destruct c as [company_id url]. unfold emitted.
  destruct (parse_company_outcome page company_id url) as (w & Heq & Hq & _).
  rewrite Heq. cbn [snd fst].
  destruct Hq as [Hq | [(text & Hq & _) | (text & Hq & _)]]; rewrite Hq; cbn;
    (split; [lia | repeat constructor]).
Qed.

(** When [driver.quit()] does not raise, exactly one item is put. *)
Lemma emitted_once (page : browser) (company_id : Z) (url : str) :
  on_quit page = None ->
  exists text, emitted page (company_id, url) = [Envelope text company_id].
Proof.
  intros Hquit. unfold emitted.
  destruct (parse_company_outcome page company_id url) as (w & Heq & Hq & _).
  rewrite Heq. cbn [snd].
  destruct Hq as [Hq | [(text & Hq & _) | (text & Hq & Hne)]]; eauto.
  contradiction.
Qed.

(** ** The aggregator and the fetch *)

Ltac unfold_store :=
  unfold save_item, save_item_with, stub, fetch_companies, get_db_connection,
    pool_create, get_connection, with_cursor, cursor, cursor_close, execute_update,
    execute_select, fetchall, commit, conn_close, connector, with_db, dlogging, set_conn, try_except, try_finally,
    bind, modify, gets, ret, raise.

(** Case analysis on the schedule of faults. *)
Ltac fault_cases :=
  repeat match goal with
    | |- context [match ?l with [] => _ | _ :: _ => _ end] =>
        is_var l; destruct l as [|[|] l]; cbn
    end.

Ltac solve_writes :=
  unfold writes; cbn; rewrite ?omap_app; cbn; rewrite ?app_nil_r;
  first [ reflexivity | left; reflexivity | right; reflexivity ].

(** One turn of the loop on an envelope.  It never breaks out of the
    loop and never raises.  An empty text leaves everything as it was.
    For any other text the store is contacted once, the outcome is
    logged (a fault always as an error), at most one [UPDATE] is issued
    and it carries the text and the id unchanged; with no fault the row
    is rewritten. *)
Lemma save_item_envelope (w : dbworld) (text : str) (company_id : Z) :
  uncommitted (db w) = [] ->
  exists w', save_item (Envelope text company_id) w = (inr false, w')
    /\ uncommitted (db w') = []
    /\ (truthy text = false -> w' = w)
    /\ (truthy text = true ->
        (exists cs, trace (db w') = trace (db w) ++ DbPool :: cs)
        /\ attempts (db w') = S (attempts (db w))
        /\ (exists ls, dlog w' = dlog w ++ ls
                       /\ (In (LogUpdated company_id) ls
                           \/ In (LogErrorSaving company_id Error) ls)
                       /\ (quiet 7 (faults (db w)) = false ->
                           In (LogErrorSaving company_id Error) ls))
        /\ (writes (db w') = writes (db w)
            \/ writes (db w') = writes (db w) ++ [(text, company_id)])
        /\ (table (db w') = table (db w)
            \/ table (db w') = apply_update (table (db w)) (text, company_id)
               /\ writes (db w') = writes (db w) ++ [(text, company_id)])
        /\ (quiet 7 (faults (db w)) = true ->
            writes (db w') = writes (db w) ++ [(text, company_id)]
            /\ table (db w') = apply_update (table (db w)) (text, company_id)
            /\ dlog w' = dlog w ++ [LogUpdated company_id])).
Proof.
  destruct w as [[t u f tr] lg cv]. cbn [db uncommitted]. intros ->.
  destruct text as [|c text].
  { eexists. split; [reflexivity|]. cbn. repeat split; try discriminate; auto. }
  unfold_store. cbn. fault_cases.
  all: eexists; (split; [reflexivity|]); cbn [db uncommitted trace dlog table faults].
  all: split; [reflexivity|]; split; [discriminate|]; intros _.
  all: split; [eexists; rewrite <- ?app_assoc; reflexivity|].
  all: split; [unfold attempts; cbn; rewrite ?List.filter_app, ?length_app; cbn; lia|].
  all: split;
    [ eexists; split; [rewrite <- ?app_assoc; reflexivity|];
      split; [cbn; tauto | unfold quiet; cbn; intros Hq; first [discriminate Hq | tauto]] |].
  all: split; [solve_writes|].
  all: split; [first [left; reflexivity | right; split; [reflexivity | solve_writes]]|].
  all: unfold quiet; cbn; intros Hq; try discriminate Hq.
  all: repeat split; try reflexivity; solve_writes.
Qed.

(** [fetch_companies] never raises: with a fault on one of its seven
    connector calls, or a limit the server rejects, it logs and returns
    the empty list; otherwise it returns the selected rows.  It writes
    nothing. *)
Lemma fetch_companies_outcome (CONFIG : config) (w : dbworld) :
  uncommitted (db w) = [] ->
  exists rows w', fetch_companies CONFIG w = (inr rows, w')
    /\ uncommitted (db w') = [] /\ table (db w') = table (db w)
    /\ writes (db w') = writes (db w)
    /\ (if quiet 7 (faults (db w)) && (0 <=? BATCH_SIZE CONFIG)
        then rows = select_company (table (db w)) (BATCH_SIZE CONFIG)
        else rows = [] /\ exists ls, dlog w' = dlog w ++ ls
                                    /\ In (LogErrorFetching Error) ls).
Proof.
  destruct w as [[t u f tr] lg cv]. cbn [db uncommitted]. intros ->.
  unfold_store. cbn. unfold quiet.
  destruct (Z.ltb_spec (BATCH_SIZE CONFIG) 0) as [Hn|Hn];
    [replace (0 <=? BATCH_SIZE CONFIG) with false by (symmetry; apply Z.leb_gt; lia)
    |replace (0 <=? BATCH_SIZE CONFIG) with true by (symmetry; apply Z.leb_le; lia)].
  all: rewrite ?andb_false_r, ?andb_true_r.
  all: fault_cases.
  all: do 2 eexists; (split; [reflexivity|]); cbn [db uncommitted trace dlog table faults].
  all: split; [reflexivity|]; split; [reflexivity|]; split; [solve_writes|].
  all: first [ reflexivity
             | split; [reflexivity|]; eexists;
               split; [rewrite <- ?app_assoc; reflexivity|]; cbn; tauto ].
Qed.

Lemma wanted_cons (t : str) (i : Z) (q : list item) :
  wanted (Envelope t i :: q) = if truthy t then i :: wanted q else wanted q.
Proof. unfold wanted. cbn. destruct (truthy t); reflexivity. Qed.

(** The loop of [save_results] consumes everything up to the first
    ["STOP"] and leaves what follows it.  Whatever the faults of the
    store, every envelope with a text gets its own connection attempt
    and its own log line. *)
Lemma save_results_drains (q rest : list item) :
  forall w : dbworld,
    STOP ∉ q -> uncommitted (db w) = [] ->
    exists w' ls,
      save_results (q ++ STOP :: rest) w = (Returned, rest, w')
      /\ uncommitted (db w') = []
      /\ attempts (db w') = (attempts (db w) + length (wanted q))%nat
      /\ dlog w' = dlog w ++ ls
      /\ forall i, In i (wanted q) ->
           In (LogUpdated i) ls \/ In (LogErrorSaving i Error) ls.
Proof.
  induction q as [|x q IH]; intros w Hstop Hu.
  - exists w, []. cbn. rewrite app_nil_r.
    repeat split; auto.
  - apply not_elem_of_cons in Hstop as [Hx Hq].
    destruct x as [t i|]; [|congruence].
    destruct (save_item_envelope w t i Hu) as (w1 & Heq & Hu1 & Hfalsy & Htruthy).
    destruct (IH w1 Hq Hu1) as (w' & ls & Hrun & Hu' & Hatt & Hlog & Hrep).
    cbn [app save_results]. rewrite Heq, Hrun, wanted_cons.
    destruct (truthy t) eqn:Ht.
    + destruct (Htruthy eq_refl) as (_ & Hatt1 & (ls1 & Hlog1 & Hrep1 & _) & _).
      exists w', (ls1 ++ ls). repeat split; auto.
      * rewrite Hatt, Hatt1. cbn [length]. lia.
      * rewrite Hlog, Hlog1, <- app_assoc. reflexivity.
      * intros j [<- | Hj].
        -- destruct Hrep1; [left | right]; apply in_or_app; auto.
        -- destruct (Hrep j Hj); [left | right]; apply in_or_app; auto.
    + rewrite (Hfalsy eq_refl) in *. exists w', ls. repeat split; auto.
Qed.

Lemma all_envelopes_no_stop (q : list item) : forallb is_envelope q = true -> STOP ∉ q.
Proof.
  induction q as [|x q IH]; intros Hq; [apply not_elem_of_nil|].
  cbn in Hq. apply andb_prop in Hq as [Hx Hq].
  apply not_elem_of_cons. split; [|apply IH, Hq].
  destruct x; [discriminate | discriminate Hx].
Qed.

Lemma offered_cons (t : str) (i : Z) (q : list item) :
  offered (Envelope t i :: q) = if truthy t then (t, i) :: offered q else offered q.
Proof. unfold offered. cbn. destruct (truthy t); reflexivity. Qed.

(** A turn on an envelope with a text, when the schedule holds no fault
    at all: the update is issued and committed, and no fault is left. *)
Lemma save_item_no_fault (w : dbworld) (text : str) (company_id : Z) :
  uncommitted (db w) = [] -> forallb negb (faults (db w)) = true ->
  truthy text = true ->
  exists w', save_item (Envelope text company_id) w = (inr false, w')
    /\ uncommitted (db w') = [] /\ forallb negb (faults (db w')) = true
    /\ writes (db w') = writes (db w) ++ [(text, company_id)]
    /\ table (db w') = apply_update (table (db w)) (text, company_id).
Proof.
  destruct w as [[t u f tr] lg cv]. cbn [db uncommitted faults]. intros -> Hf Ht.
  destruct text as [|c text]; [discriminate|].
  unfold_store. cbn. fault_cases.
  all: cbn in Hf; try discriminate Hf.
  all: eexists; (split; [reflexivity|]); cbn [db uncommitted trace table faults].
  all: repeat split; try assumption; try reflexivity; solve_writes.
Qed.

Lemma save_results_writes (q rest : list item) :
  forall w : dbworld,
    STOP ∉ q -> uncommitted (db w) = [] ->
    exists ws,
      writes (db (snd (save_results (q ++ STOP :: rest) w))) = writes (db w) ++ ws
      /\ ws `sublist_of` offered q
      /\ (forallb negb (faults (db w)) = true ->
          ws = offered q
          /\ table (db (snd (save_results (q ++ STOP :: rest) w)))
             = foldl apply_update (table (db w)) (offered q)).
Proof.
  induction q as [|x q IH]; intros w Hstop Hu.
  - exists []. cbn. rewrite app_nil_r. repeat split; auto using sublist_nil_l.
  - apply not_elem_of_cons in Hstop as [Hx Hq].
    destruct x as [t i|]; [|congruence].
    destruct (save_item_envelope w t i Hu) as (w1 & Heq & Hu1 & Hfalsy & Htruthy).
    destruct (IH w1 Hq Hu1) as (ws & Hws & Hsub & Hexact).
    cbn [app save_results]. rewrite Heq, offered_cons.
    destruct (truthy t) eqn:Ht.
    + destruct (Htruthy eq_refl) as (_ & _ & _ & Hwr & _).
      destruct Hwr as [Hwr | Hwr].
      * exists ws. rewrite Hws, Hwr. split; [reflexivity|].
        split; [apply sublist_cons, Hsub|].
        intros Hf.
        destruct (save_item_no_fault w t i Hu Hf Ht) as (w2 & Heq2 & _ & _ & Hwr2 & _).
        rewrite Heq in Heq2. injection Heq2 as <-. rewrite Hwr in Hwr2.
        apply (f_equal (@length _)) in Hwr2. rewrite length_app in Hwr2.
        cbn in Hwr2. lia.
      * exists ((t, i) :: ws). rewrite Hws, Hwr, <- app_assoc. split; [reflexivity|].
        split; [apply sublist_skip, Hsub|].
        intros Hf.
        destruct (save_item_no_fault w t i Hu Hf Ht) as (w2 & Heq2 & _ & Hf2 & _ & Htab2).
        rewrite Heq in Heq2. injection Heq2 as <-.
        destruct (Hexact Hf2) as [-> Htab]. split; [reflexivity|].
        rewrite Htab, Htab2. reflexivity.
    + rewrite (Hfalsy eq_refl) in *. exists ws. auto.
Qed.

(** One turn on an envelope with a text, under any schedule.  The turn
    uses up the part of the schedule its own calls consult.  The update
    is issued when pool, connection and cursor are had, and the row is
    rewritten when the commit gets through as well; a fault on any of
    the seven calls is logged as an error saving the company. *)
Lemma save_item_turn (w : dbworld) (text : str) (company_id : Z) :
  uncommitted (db w) = [] -> truthy text = true ->
  exists w' ls, save_item (Envelope text company_id) w = (inr false, w')
    /\ uncommitted (db w') = []
    /\ faults (db w') = drop (turn_calls text company_id (faults (db w))) (faults (db w))
    /\ writes (db w')
       = writes (db w) ++ (if quiet 3 (faults (db w)) then [(text, company_id)] else [])
    /\ table (db w')
       = foldl apply_update (table (db w))
           (if quiet 5 (faults (db w)) then [(text, company_id)] else [])
    /\ dlog w' = dlog w ++ ls
    /\ (if quiet 7 (faults (db w))
        then ls = [LogUpdated company_id]
        else In (LogErrorSaving company_id Error) ls).
Proof.
  destruct w as [[t u f tr] lg cv]. cbn [db uncommitted faults table dlog]. intros -> Ht.
  destruct text as [|c text]; [discriminate|].
  unfold turn_calls. unfold_store. cbn. unfold quiet. fault_cases.
  all: do 2 eexists; (split; [reflexivity|]); cbn [db uncommitted trace dlog table faults].
  all: split; [reflexivity|]; split; [reflexivity|].
  all: split; [solve_writes|]; split; [reflexivity|].
  all: split; [rewrite <- ?app_assoc; reflexivity|]; cbn; first [reflexivity | tauto].
Qed.

(** A schedule that lets [n] calls through lets fewer through. *)
Lemma quiet_le (m n : nat) (f : list bool) :
  (m <= n)%nat -> quiet n f = true -> quiet m f = true.
Proof.
  unfold quiet. rewrite !forallb_forall. intros Hle Hn x Hx. apply Hn.
  apply list_elem_of_In. apply list_elem_of_In in Hx.
  apply elem_of_take in Hx as (i & Hi & Hlt).
  apply elem_of_take. exists i. split; [exact Hi | lia].
Qed.

(** A turn whose seven calls all get through. *)
Lemma save_item_quiet (w : dbworld) (text : str) (company_id : Z) (f' : list bool) :
  uncommitted (db w) = [] -> truthy text = true ->
  faults (db w) = replicate 7 false ++ f' ->
  exists w', save_item (Envelope text company_id) w = (inr false, w')
    /\ uncommitted (db w') = [] /\ faults (db w') = f'
    /\ writes (db w') = writes (db w) ++ [(text, company_id)]
    /\ table (db w') = apply_update (table (db w)) (text, company_id)
    /\ dlog w' = dlog w ++ [LogUpdated company_id].
Proof.
  destruct w as [[t u f tr] lg cv]. cbn [db uncommitted faults table dlog]. intros -> Ht ->.
  destruct text as [|c text]; [discriminate|].
  unfold_store. cbn. eexists. split; [reflexivity|].
  cbn [db uncommitted trace dlog table faults].
  repeat split; solve_writes.
Qed.

(** The loop over the first envelopes of a queue, while the schedule
    holds no fault for their turns: each one with a text is written and
    committed, in order, and the loop goes on with what follows. *)
Lemma save_results_quiet (q q' : list item) (f' : list bool) :
  forall w : dbworld,
    STOP ∉ q -> uncommitted (db w) = [] ->
    faults (db w) = replicate (7 * length (offered q)) false ++ f' ->
    exists w' ls,
      save_results (q ++ q') w = save_results q' w'
      /\ uncommitted (db w') = [] /\ faults (db w') = f'
      /\ writes (db w') = writes (db w) ++ offered q
      /\ table (db w') = foldl apply_update (table (db w)) (offered q)
      /\ dlog w' = dlog w ++ ls.
Proof.
  induction q as [|x q IH]; intros w Hstop Hu Hf.
  - exists w, []. cbn in *. rewrite !app_nil_r. repeat split; assumption.
  - apply not_elem_of_cons in Hstop as [Hx Hq].
    destruct x as [t i|]; [|congruence].
    rewrite offered_cons in *. cbn [app save_results].
    destruct (truthy t) eqn:Ht.
    + cbn [length] in Hf.
      replace (7 * S (length (offered q)))%nat
        with (7 + 7 * length (offered q))%nat in Hf by lia.
      rewrite replicate_add, <- app_assoc in Hf.
      destruct (save_item_quiet w t i _ Hu Ht Hf) as (w1 & Heq & Hu1 & Hf1 & Hw1 & Ht1 & Hl1).
      destruct (IH w1 Hq Hu1 Hf1) as (w' & ls & Hrun & Hu' & Hf' & Hw' & Ht' & Hl').
      exists w', (LogUpdated i :: ls). rewrite Heq, Hrun.
      rewrite Hw', Hw1, Ht', Ht1, Hl', Hl1, <- !app_assoc. repeat split; assumption.
    + destruct (save_item_envelope w t i Hu) as (w1 & Heq & _ & Hfalsy & _).
      rewrite (Hfalsy Ht) in Heq. rewrite Heq. apply IH; assumption.
Qed.

(** A later update of the same id replaces an earlier one. *)
Lemma apply_update_twice (t : list row) (a b : str) (company_id : Z) :
  apply_update (apply_update t (a, company_id)) (b, company_id)
  = apply_update t (b, company_id).
Proof.
  unfold apply_update. rewrite List.map_map. apply List.map_ext. intros r. cbn.
  destruct (row_id r =? company_id) eqn:Heq; cbn; rewrite ?Heq; reflexivity.
Qed.

(** ** The pipeline: the invariant holds in every run *)

Section Invariant.

Variable CONFIG : config.
Variable web : nat -> browser.

Lemma invariant_init (t : list row) (f : list bool) :
  invariant CONFIG (init (fresh_db t f)).
Proof.
  constructor; cbn; auto; try discriminate.
  - unfold limit. lia.
  - apply not_elem_of_nil.
Qed.

Lemma stop_sent_consuming (p : pc) :
  stop_sent p Consuming = stop_sent p Stopped.
Proof. destruct p; reflexivity. Qed.

Lemma save_item_stop (w : dbworld) : save_item STOP w = (inr true, w).
Proof. reflexivity. Qed.

Lemma saver_step_invariant (s s' : system) :
  invariant CONFIG s -> saver_step s = Some s' -> invariant CONFIG s'.
Proof.
  intros [Hw Hst Hj Hr Hl Hf Hs Hp Hfe Hsv Ht Hfin] Hstep.
  unfold saver_step in Hstep.
  destruct (saver s) eqn:Hsaver; try discriminate.
  destruct (result_queue s) as [|x rest] eqn:Hqueue; try discriminate.
  assert (Hpc : main_pc s <> AtFetch) by (intros H; apply Hfe in H; congruence).
  destruct x as [t i|].
  - destruct (save_item_envelope
                {| db := sdb s; dlog := saver_log s; conn_var := None |} t i Ht)
      as (w1 & Heq & Hu1 & _).
    rewrite Heq in Hstep. injection Hstep as <-.
    constructor; cbn;
      [ exact Hw | exact Hst | exact Hj | exact Hr | exact Hl | | exact Hs
      | exact Hp | intros H; contradiction | | exact Hu1
      | intros H; destruct (Hfin H); discriminate ].
    + rewrite Hf, <- app_assoc. reflexivity.
    + apply not_elem_of_app. split; [exact Hsv|].
      apply not_elem_of_cons. split; [discriminate | apply not_elem_of_nil].
  - rewrite save_item_stop in Hstep. injection Hstep as <-.
    constructor; cbn;
      [ exact Hw | exact Hst | exact Hj | exact Hr | exact Hl | |
      | exact Hp | intros H; contradiction | | exact Ht
      | intros H; destruct (Hfin H); discriminate ].
    + rewrite Hf, <- app_assoc. reflexivity.
    + rewrite stop_sent_consuming in Hs. exact Hs.
    + exists (received s). auto.
Qed.

(** A process that still runs has not been joined, and ["STOP"] has
    not been put before it ends. *)
Lemma running_not_joined (s : system) (pid : nat) (l : list item) :
  invariant CONFIG s -> procs s !! pid = Some (Running l) ->
  (length (procs s) - length (waiting (main_pc s)) <= pid < length (procs s))%nat
  /\ stop_sent (main_pc s) (saver s) = false
  /\ saver s <> NotStarted.
Proof.
  intros [Hw Hst Hj Hr Hl Hf Hs Hp Hfe Hsv Ht Hfin] Hlook.
  assert (Hlt : (pid < length (procs s))%nat) by (eapply lookup_lt_Some; eauto).
  assert (Hge : (length (procs s) - length (waiting (main_pc s)) <= pid)%nat).
  { destruct (Nat.le_gt_cases (length (procs s) - length (waiting (main_pc s))) pid)
      as [H|H]; [exact H|].
    rewrite Forall_lookup in Hj. specialize (Hj pid (Running l)).
    rewrite lookup_take_lt in Hj by exact H. specialize (Hj Hlook). discriminate. }
  repeat split; try assumption.
  - destruct (main_pc s); try reflexivity; cbn in Hge; lia.
  - intros Hn. rewrite Hn in Hsv. destruct Hsv as (_ & Hnil & _).
    rewrite Hnil in Hlt. cbn in Hlt. lia.
Qed.

Lemma extractor_step_invariant (pid : nat) (s s' : system) :
  invariant CONFIG s -> extractor_step pid s = Some s' -> invariant CONFIG s'.
Proof.
  intros Hinv Hstep. unfold extractor_step in Hstep.
  destruct (procs s !! pid) as [[l|]|] eqn:Hlook; try discriminate.
  destruct (running_not_joined s pid l Hinv Hlook) as ((Hge & Hlt) & Hsent & Hns).
  destruct Hinv as [Hw Hst Hj Hr Hl Hf Hs Hp Hfe Hsv Ht Hfin].
  rewrite Hsent in Hs.
  assert (Hl0 : STOP ∉ l).
  { rewrite Forall_lookup in Hp. apply (Hp pid (Running l) Hlook). }
  destruct l as [|x rest]; injection Hstep as <-.
  - constructor; cbn; rewrite ?length_insert;
      [ exact Hw | exact Hst | | exact Hr | exact Hl | exact Hf | rewrite Hsent; exact Hs
      | | exact Hfe | | exact Ht | exact Hfin ].
    + rewrite take_insert_ge by exact Hge. exact Hj.
    + apply Forall_insert; [exact Hp | exact I].
    + destruct (saver s); try assumption. contradiction.
  - apply not_elem_of_cons in Hl0 as [Hx Hrest].
    constructor; cbn; rewrite ?length_insert;
      [ exact Hw | exact Hst | | exact Hr | exact Hl | | rewrite Hsent
      | | exact Hfe | | exact Ht | exact Hfin ].
    + rewrite take_insert_ge by exact Hge. exact Hj.
    + rewrite Hf, <- app_assoc. reflexivity.
    + apply not_elem_of_app. split; [exact Hs|].
      apply not_elem_of_cons. split; [congruence | apply not_elem_of_nil].
    + apply Forall_insert; [exact Hp | exact Hrest].
    + destruct (saver s); try assumption. contradiction.
Qed.

(** Joining the head of the waiting list extends the joined prefix. *)
Lemma join_head (l : list proc) (p : nat) (r : list nat) :
  p :: r = seq (length l - S (length r)) (S (length r)) ->
  (S (length r) <= length l)%nat ->
  Forall (fun q => q = Exited) (take (length l - S (length r)) l) ->
  l !! p = Some Exited ->
  r = seq (length l - length r) (length r)
  /\ Forall (fun q => q = Exited) (take (length l - length r) l).
Proof.
  intros Hw Hst Hj Hp. cbn [seq] in Hw. injection Hw as Hp' Hr.
  replace (length l - length r)%nat with (S (length l - S (length r))) by lia.
  split; [exact Hr|].
  rewrite (take_S_r _ _ Exited) by (rewrite <- Hp'; exact Hp).
  apply Forall_app. split; [exact Hj | repeat constructor].
Qed.

Lemma joinable_exited (s : system) (p : nat) :
  joinable s p = true -> procs s !! p = Some Exited.
Proof.
  unfold joinable. destruct (procs s !! p) as [[|]|]; try discriminate. reflexivity.
Qed.

Lemma emitted_no_stop (page : browser) (c : company) : STOP ∉ emitted page c.
Proof.
  destruct (emitted_bounds page c) as [_ H]. intros Hin.
  rewrite Forall_forall in H. exact (H STOP Hin).
Qed.

Ltac saver_unchanged s :=
  match goal with
  | Hsv' : saver s <> NotStarted |- _ =>
      destruct (saver s); [exfalso; apply Hsv'; reflexivity | assumption ..]
  end.

Lemma main_step_invariant (s s' : system) :
  invariant CONFIG s -> main_step CONFIG web s = Some s' -> invariant CONFIG s'.
Proof.
  intros [Hw Hst Hj Hr Hl Hf Hs Hp Hfe Hsv Ht Hfin] Hstep.
  unfold main_step in Hstep.
  assert (Hlim : 1 <= limit CONFIG) by (unfold limit; lia).
  destruct (main_pc s) as [|todo ps|todo ws|ws| | |] eqn:Hpc; cbn in *.
  - (* companies = fetch_companies() *)
    rewrite (Hfe eq_refl) in *. destruct Hsv as (_ & Hprocs & Hhist & Hwr).
    destruct (fetch_companies_outcome CONFIG
                {| db := sdb s; dlog := main_log s; conn_var := None |} Ht)
      as (rows & w' & Heq & Hu' & _ & Hwr' & _).
    rewrite Heq in Hstep. cbn in Hwr'. rewrite Hwr in Hwr'.
    symmetry in Hf. rewrite Hhist in Hf. apply app_eq_nil in Hf as [Hrec Hq].
    destruct rows as [|c rows]; injection Hstep as <-.
    all: constructor; cbn; rewrite ?Hprocs, ?Hhist, ?Hrec, ?Hq; cbn.
    all: solve [ assumption | discriminate | reflexivity | constructor
               | apply not_elem_of_nil | lia | tauto
               | intros todo ps [= <- <-]; cbn; lia ].
  - (* for company in companies *)
    assert (Hsv' : saver s <> NotStarted).
    { intros Hn. rewrite Hn in Hsv. destruct Hsv as ([H|H] & _); discriminate. }
    destruct todo as [|c todo].
    + injection Hstep as <-.
      constructor; cbn; try assumption; try discriminate.
      saver_unchanged s.
    + specialize (Hl (c :: todo) ps eq_refl).
      set (p := Running (emitted (web (length (procs s))) c)) in *.
      assert (Hlen : length (ps ++ [length (procs s)]) = S (length ps)).
      { rewrite length_app. cbn. lia. }
      assert (Hlen' : length (procs s ++ [p]) = S (length (procs s))).
      { rewrite length_app. cbn. lia. }
      assert (Hwait : ps ++ [length (procs s)]
                      = seq (length (procs s ++ [p]) - length (ps ++ [length (procs s)]))
                            (length (ps ++ [length (procs s)]))).
      { rewrite Hlen, Hlen'. cbn [Nat.sub]. rewrite seq_S, <- Hw. f_equal. f_equal. lia. }
      assert (Hjoin : Forall (fun q => q = Exited)
                        (take (length (procs s ++ [p]) - length (ps ++ [length (procs s)]))
                              (procs s ++ [p]))).
      { rewrite Hlen, Hlen'. cbn [Nat.sub]. rewrite take_app_le by lia. exact Hj. }
      assert (Hpend : Forall no_stop_pending (procs s ++ [p])).
      { apply Forall_app. split; [exact Hp|]. repeat constructor.
        apply emitted_no_stop. }
      destruct (Z.of_nat (length (ps ++ [length (procs s)])) >=? MAX_THREADS CONFIG)
        eqn:Hfull; injection Hstep as <-.
      all: constructor; cbn; try assumption; try discriminate; try lia.
      all: try solve [saver_unchanged s].
      intros todo0 ps0 [= <- <-]. unfold limit. lia.
  - (* for p in processes: p.join(), inside the loop *)
    assert (Hsv' : saver s <> NotStarted).
    { intros Hn. rewrite Hn in Hsv. destruct Hsv as ([H|H] & _); discriminate. }
    destruct ws as [|p r].
    + injection Hstep as <-.
      constructor; cbn; try assumption; try discriminate; try lia.
      all: try solve [saver_unchanged s].
      intros todo0 ps0 [= <- <-]. cbn. lia.
    + destruct (joinable s p) eqn:Hjn; [|discriminate]. injection Hstep as <-.
      apply joinable_exited in Hjn.
      destruct (join_head (procs s) p r Hw Hst Hj Hjn) as [Hw' Hj'].
      constructor; cbn in *; try assumption; try discriminate; try lia.
      all: try solve [saver_unchanged s].
  - (* for p in processes: p.join(), after the loop *)
    assert (Hsv' : saver s <> NotStarted).
    { intros Hn. rewrite Hn in Hsv. destruct Hsv as ([H|H] & _); discriminate. }
    destruct ws as [|p r].
    + injection Hstep as <-.
      constructor; cbn; try assumption; try discriminate; try lia.
      all: try solve [saver_unchanged s].
    + destruct (joinable s p) eqn:Hjn; [|discriminate]. injection Hstep as <-.
      apply joinable_exited in Hjn.
      destruct (join_head (procs s) p r Hw Hst Hj Hjn) as [Hw' Hj'].
      constructor; cbn in *; try assumption; try discriminate; try lia.
      all: try solve [saver_unchanged s].
  - (* result_queue.put("STOP") *)
    assert (Hsv' : saver s <> NotStarted).
    { intros Hn. rewrite Hn in Hsv. destruct Hsv as ([H|H] & _); discriminate. }
    injection Hstep as <-.
    constructor; cbn; try assumption; try discriminate; try lia.
    all: try solve [saver_unchanged s].
    + rewrite Hf, <- app_assoc. reflexivity.
    + exists (history s). auto.
  - (* saver_process.join() *)
    destruct (saver s) eqn:Hsaver; try discriminate; try contradiction.
    injection Hstep as <-.
    constructor; cbn; rewrite ?Hsaver; try assumption; try discriminate; try lia.
    intros _. right. reflexivity.
  - discriminate.
Qed.

Lemma step_invariant (a : action) (s s' : system) :
  invariant CONFIG s -> step CONFIG web a s = Some s' -> invariant CONFIG s'.
Proof.
  destruct a; cbn.
  - apply main_step_invariant.
  - apply extractor_step_invariant.
  - apply saver_step_invariant.
Qed.

Lemma run_invariant (sched : list action) :
  forall s s', invariant CONFIG s -> run CONFIG web sched s = Some s' -> invariant CONFIG s'.
Proof.
  induction sched as [|a sched IH]; intros s s' Hinv Hrun; cbn in Hrun.
  - injection Hrun as <-. exact Hinv.
  - destruct (step CONFIG web a s) as [s1|] eqn:Hstep; [|discriminate].
    eapply IH; [|exact Hrun]. eapply step_invariant; eauto.
Qed.

(** Every state a run can reach from the start satisfies the invariant. *)
Lemma reachable_invariant (t : list row) (f : list bool)
    (sched : list action) (s : system) :
  run CONFIG web sched (init (fresh_db t f)) = Some s -> invariant CONFIG s.
Proof. apply run_invariant, invariant_init. Qed.

End Invariant.

Section Rounds.

Variable CONFIG : config.
Variable web : nat -> browser.

Lemma filter_exited (l : list proc) :
  Forall (fun p => p = Exited) l ->
  List.filter is_running l = [].
Proof.
  induction 1 as [|p l Hp _ IH]; [reflexivity|]. subst p. exact IH.
Qed.

(** The running processes are among those [main] has yet to join. *)
Lemma active_le_waiting (s : system) :
  invariant CONFIG s -> (active s <= length (waiting (main_pc s)))%nat.
Proof.
  intros [Hw Hst Hj _ _ _ _ _ _ _ _ _].
  unfold active.
  rewrite <- (take_drop (length (procs s) - length (waiting (main_pc s))) (procs s)) at 1.
  rewrite List.filter_app, length_app, (filter_exited _ Hj). cbn.
  etransitivity; [apply List.filter_length_le|].
  rewrite length_drop. lia.
Qed.

Lemma limit_max_threads : 1 <= MAX_THREADS CONFIG -> limit CONFIG = MAX_THREADS CONFIG.
Proof. unfold limit. lia. Qed.

End Rounds.

(** ** The pipeline: every run ends *)

Lemma procs_measure_insert (l : list proc) :
  forall (i : nat) (x y : proc),
    l !! i = Some x ->
    (procs_measure (<[i := y]> l) + proc_measure x
     = procs_measure l + proc_measure y)%nat.
Proof.
  unfold procs_measure.
  induction l as [|p l IH]; intros i x y Hi; [discriminate|].
  destruct i as [|i].
  - cbn in *. injection Hi as ->. lia.
  - change (<[S i := y]> (p :: l)) with (p :: <[i := y]> l).
    change ((p :: l) !! S i) with (l !! i) in Hi.
    specialize (IH i x y Hi). cbn [sum_list_with]. lia.
Qed.

Lemma procs_measure_app (l k : list proc) :
  procs_measure (l ++ k) = (procs_measure l + procs_measure k)%nat.
Proof. apply sum_list_with_app. Qed.

Section Liveness.

Variable CONFIG : config.
Variable web : nat -> browser.

Lemma main_step_decreases (s s' : system) :
  main_step CONFIG web s = Some s' -> (measure CONFIG s' < measure CONFIG s)%nat.
Proof.
  unfold main_step, measure, main_measure, procs_measure. intros Hstep.
  destruct (main_pc s) as [|todo ps|todo ws|ws| | |] eqn:Hpc.
  - destruct (fetch_companies CONFIG _) as [[e|rows] w]; cbn [fst].
    + injection Hstep as <-. cbn. lia.
    + destruct rows; injection Hstep as <-; cbn; lia.
  - destruct todo as [|c todo].
    + injection Hstep as <-. cbn. lia.
    + pose proof (emitted_bounds (web (length (procs s))) c) as [[_ Hle] _].
      destruct (_ >=? _); injection Hstep as <-; cbn;
        rewrite ?sum_list_with_app, ?length_app; cbn; lia.
  - destruct ws as [|p r].
    + injection Hstep as <-. cbn. lia.
    + destruct (joinable s p); [|discriminate]. injection Hstep as <-. cbn. lia.
  - destruct ws as [|p r].
    + injection Hstep as <-. cbn. lia.
    + destruct (joinable s p); [|discriminate]. injection Hstep as <-. cbn. lia.
  - injection Hstep as <-. cbn. rewrite length_app. cbn. lia.
  - destruct (saver s); try discriminate; injection Hstep as <-; cbn; lia.
  - discriminate.
Qed.

Lemma extractor_step_decreases (pid : nat) (s s' : system) :
  extractor_step pid s = Some s' -> (measure CONFIG s' < measure CONFIG s)%nat.
Proof.
  unfold extractor_step, measure. intros Hstep.
  destruct (procs s !! pid) as [[[|x rest]|]|] eqn:Hlook; try discriminate;
    injection Hstep as <-.
  - change (main_measure CONFIG (set_procs (<[pid:=Exited]> (procs s)) s))
      with (main_measure CONFIG s).
    pose proof (procs_measure_insert (procs s) pid _ Exited Hlook) as H.
    cbn [procs result_queue set_procs]. cbn [proc_measure length] in H. lia.
  - change (main_measure CONFIG (put x (set_procs (<[pid:=Running rest]> (procs s)) s)))
      with (main_measure CONFIG s).
    pose proof (procs_measure_insert (procs s) pid _ (Running rest) Hlook) as H.
    cbn [procs result_queue put set_procs]. rewrite length_app.
    cbn [proc_measure length] in H |- *. lia.
Qed.

Lemma saver_step_decreases (s s' : system) :
  main_pc s <> AtFetch -> saver_step s = Some s' -> (measure CONFIG s' < measure CONFIG s)%nat.
Proof.
  unfold saver_step, measure, main_measure. intros Hpc Hstep.
  destruct (saver s); try discriminate.
  destruct (result_queue s) as [|x rest]; try discriminate.
  destruct (save_item x _) as [r w]. injection Hstep as <-.
  cbn [main_pc procs result_queue sdb main_log].
  destruct (main_pc s); try congruence; cbn [length]; lia.
Qed.

Lemma step_decreases (a : action) (s s' : system) :
  invariant CONFIG s -> step CONFIG web a s = Some s' -> (measure CONFIG s' < measure CONFIG s)%nat.
Proof.
  intros Hinv. destruct a; cbn.
  - apply main_step_decreases.
  - apply extractor_step_decreases.
  - intros Hstep. apply saver_step_decreases; [|exact Hstep].
    intros Hpc. apply (inv_fetch _ _ Hinv) in Hpc.
    unfold saver_step in Hstep. rewrite Hpc in Hstep. discriminate.
Qed.

(** No run is longer than the work left at its start. *)
Lemma run_bounded (sched : list action) :
  forall s s', invariant CONFIG s -> run CONFIG web sched s = Some s' ->
               (length sched + measure CONFIG s' <= measure CONFIG s)%nat.
Proof.
  induction sched as [|a sched IH]; intros s s' Hinv Hrun; cbn in Hrun.
  - injection Hrun as <-. cbn. lia.
  - destruct (step CONFIG web a s) as [s1|] eqn:Hstep; [|discriminate].
    pose proof (step_decreases a s s1 Hinv Hstep).
    pose proof (IH s1 s' (step_invariant CONFIG web a s s1 Hinv Hstep) Hrun).
    cbn [length]. lia.
Qed.

(** Until [main] has finished, some process can move. *)
Lemma progress (s : system) :
  invariant CONFIG s -> main_pc s <> Finished ->
  exists a s', step CONFIG web a s = Some s'.
Proof.
  intros [Hw Hst Hj Hr Hl Hf Hs Hp Hfe Hsv Ht Hfin] Hpc.
  assert (Hjoin : forall p r, waiting (main_pc s) = p :: r ->
            joinable s p = true \/ exists a s', step CONFIG web a s = Some s').
  { intros p r Hwait. rewrite Hwait in Hw, Hst. cbn [length seq] in Hw, Hst.
    injection Hw as Hp' _.
    assert (Hlt : (p < length (procs s))%nat) by lia.
    apply lookup_lt_is_Some in Hlt as [[l|] Hlook].
    - right. exists (Extractor p). cbn. unfold extractor_step. rewrite Hlook.
      destruct l; eauto.
    - left. unfold joinable. rewrite Hlook. reflexivity. }
  destruct (main_pc s) as [|todo ps|todo ws|ws| | |] eqn:Hpc'; try congruence.
  - exists Main. cbn. unfold main_step. rewrite Hpc'.
    destruct (fetch_companies CONFIG _) as [[e|[|c rows]] w]; eauto.
  - exists Main. cbn. unfold main_step. rewrite Hpc'.
    destruct todo; [eauto|]. destruct (_ >=? _); eauto.
  - destruct ws as [|p r].
    + exists Main. cbn. unfold main_step. rewrite Hpc'. eauto.
    + destruct (Hjoin p r eq_refl) as [Hjn|Hmove]; [|exact Hmove].
      exists Main. cbn. unfold main_step. rewrite Hpc', Hjn. eauto.
  - destruct ws as [|p r].
    + exists Main. cbn. unfold main_step. rewrite Hpc'. eauto.
    + destruct (Hjoin p r eq_refl) as [Hjn|Hmove]; [|exact Hmove].
      exists Main. cbn. unfold main_step. rewrite Hpc', Hjn. eauto.
  - exists Main. cbn. unfold main_step. rewrite Hpc'. eauto.
  - cbn in Hs. destruct (saver s) eqn:Hsaver.
    + destruct Hsv as ([H|H] & _); discriminate.
    + destruct (result_queue s) as [|x rest] eqn:Hq.
      * rewrite app_nil_r in Hf. rewrite Hf in Hs.
        destruct Hs as (envs & Heq & _). exfalso. apply Hsv.
        rewrite Heq. apply elem_of_app. right. apply list_elem_of_singleton. reflexivity.
      * exists Saver. cbn. unfold saver_step. rewrite Hsaver, Hq.
        destruct (save_item x _) as [r w]. eauto.
    + exists Main. cbn. unfold main_step. rewrite Hpc', Hsaver. eauto.
    + contradiction.
Qed.


End Liveness.

(** * Part IV: the properties of the specification *)

Lemma visible_text_blank (texts : list str) :
  forallb blank texts = true -> visible_text texts = [].
Proof.
  intros Hall. unfold visible_text.
  replace (List.filter (fun t => negb (blank t)) texts) with (@nil str).
  - reflexivity.
  - induction texts as [|t texts IH]; [reflexivity|].
    cbn in Hall |- *. apply andb_prop in Hall as [Ht Hts].
    rewrite Ht. cbn. apply IH, Hts.
Qed.

(** C1 (the code departs from the claim): a record whose extraction
    failed must not be written.  On a page that fails to load the
    extractor sends the marker, and [save_results] then updates the row
    of that id with the marker as its description. *)
Theorem failure_marker_is_written :
  emitted bad_page (2, py "https://bad.test") = [Envelope ERROR 2]
  /\ (let '(e, rest, w) := save_results [Envelope ERROR 2; STOP] (saver_world scenario_db) in
      e = Returned
      /\ writes (db w) = [(ERROR, 2)]
      /\ table (db w)
         = [ {| row_id := 1; homepageurl := py "https://a.test"; description := [] |};
             {| row_id := 2; homepageurl := py "https://bad.test"; description := ERROR |} ]).
Proof. vm_compute. repeat split. Qed.

(** C2 (the code departs from the claim): every record is to yield
    exactly one envelope.  When every step succeeds and [driver.quit()]
    then raises, the extractor has already put the text and its handler
    puts the marker as well: two envelopes for one record. *)
Theorem quit_failure_duplicates_envelope :
  emitted (loaded_page [py "hello"] (Some WebDriverException)) (1, py "https://a.test")
  = [Envelope (py "hello") 1; Envelope ERROR 1].
Proof. vm_compute. reflexivity. Qed.

(** C5 (the code departs from the claim): on a page whose extraction
    succeeds, the text sent and, with enrichment disabled, the value
    persisted are to be the texts of the collected nodes, the blank ones
    skipped, joined by single spaces, with every quote removed and the
    surrounding whitespace trimmed.  The text sent is that text, on
    every exit path, and when [driver.quit()] returns it is what the
    aggregator stores for the id.  When every step succeeds and
    [driver.quit()] then raises, the handler of [parse_company] sends
    the marker after the text, and the aggregator stores the marker over
    it: the value persisted for the page is ["ERROR"], not its text. *)
Theorem extracted_text_overwritten_by_marker
    (texts : list str) (e : exn) (company_id : Z) (url : str)
    (t : list row) (f : list bool) (rest : list item) :
  forallb negb f = true ->
  let joined := join [space] (List.filter (fun x => negb (blank x)) texts) in
  let text := visible_text texts in
  let sent quit := emitted (loaded_page texts quit) (company_id, url) in
  let stored quit :=
    save_results (sent quit ++ STOP :: rest) (saver_world (fresh_db t f)) in
  trimmed (remove_quotes joined) text
  /\ (forall quit, head (sent quit) = Some (Envelope text company_id))
  /\ (exists w, stored None = (Returned, rest, w)
        /\ writes (db w) = (if truthy text then [(text, company_id)] else [])
        /\ table (db w) = (if truthy text then apply_update t (text, company_id) else t))
  /\ (exists w, stored (Some e) = (Returned, rest, w)
        /\ writes (db w)
           = (if truthy text then [(text, company_id)] else []) ++ [(ERROR, company_id)]
        /\ table (db w) = apply_update t (ERROR, company_id)).
Proof.
  intros Hf joined text sent stored.
  assert (Hloop : forall q, forallb is_envelope q = true ->
            exists w, save_results (q ++ STOP :: rest) (saver_world (fresh_db t f))
                      = (Returned, rest, w)
              /\ writes (db w) = offered q
              /\ table (db w) = foldl apply_update t (offered q)).
  { intros q Hq. pose proof (all_envelopes_no_stop q Hq) as Hn.
    destruct (save_results_drains q rest (saver_world (fresh_db t f)) Hn eq_refl)
      as (w & _ & Hrun & _).
    destruct (save_results_writes q rest (saver_world (fresh_db t f)) Hn eq_refl)
      as (ws & Hws & _ & Hexact).
    rewrite Hrun in Hws, Hexact. cbn [snd] in Hws, Hexact.
    destruct (Hexact Hf) as [-> Htab].
    exists w. split; [exact Hrun|]. split; [exact Hws | exact Htab]. }
  split; [apply strip_trimmed|].
  split; [intros quit; unfold sent; rewrite emitted_loaded; reflexivity|].
  split.
  - destruct (Hloop (sent None)) as (w & Hrun & Hw & Ht).
    { unfold sent. rewrite emitted_loaded. reflexivity. }
    exists w. split; [exact Hrun|]. rewrite Hw, Ht.
    unfold sent. rewrite emitted_loaded, offered_cons. fold text.
    destruct (truthy text); split; reflexivity.
  - destruct (Hloop (sent (Some e))) as (w & Hrun & Hw & Ht).
    { unfold sent. rewrite emitted_loaded. reflexivity. }
    exists w. split; [exact Hrun|]. rewrite Hw, Ht.
    unfold sent. rewrite emitted_loaded, !offered_cons. fold text.
    replace (truthy ERROR) with true by reflexivity.
    destruct (truthy text); split; try reflexivity.
    cbn [offered omap foldl]. apply apply_update_twice.
Qed.

(** The page with the one text [hello], all steps succeeding,
    [driver.quit()] raising: row 1 ends with the marker. *)
Lemma extracted_text_overwritten_by_marker_witness :
  exists w,
    save_results
      (emitted (loaded_page [py "hello"] (Some WebDriverException)) (1, py "https://a.test")
       ++ STOP :: [])
      (saver_world (fresh_db (table scenario_db) []))
    = (Returned, [], w)
    /\ writes (db w) = [(py "hello", 1)] ++ [(ERROR, 1)]
    /\ table (db w) = apply_update (table scenario_db) (ERROR, 1).
Proof.
  refine (proj2 (proj2 (proj2
    (extracted_text_overwritten_by_marker
       [py "hello"] WebDriverException 1 (py "https://a.test")
       (table scenario_db) [] [] _)))).
  reflexivity.
Defined.

(** C6, as the claim states it, fails: a successful extraction with an
    empty text is not persisted although enrichment is disabled. *)
Lemma empty_text_not_persisted :
  let w' := snd (save_item (Envelope [] 1) (saver_world scenario_db)) in
  writes (db w') = [] /\ table (db w') = table scenario_db.
Proof. vm_compute. split; reflexivity. Qed.

(** C6, amended: with enrichment disabled, which is the only path
    [save_results] runs, a successful extraction whose text is not empty
    is persisted verbatim for its id, by one update, when the store has
    no fault. *)
Theorem text_persisted_verbatim
    (t : list row) (f : list bool) (text : str) (company_id : Z) :
  truthy text = true -> quiet 7 f = true ->
  exists w', save_item (Envelope text company_id) (saver_world (fresh_db t f)) = (inr false, w')
    /\ writes (db w') = [(text, company_id)]
    /\ table (db w') = apply_update t (text, company_id)
    /\ dlog w' = [LogUpdated company_id].
Proof.
  intros Ht Hq.
  destruct (save_item_envelope (saver_world (fresh_db t f)) text company_id eq_refl)
    as (w1 & Heq & _ & _ & Htruthy).
  destruct (Htruthy Ht) as (_ & _ & _ & _ & _ & Hquiet).
  destruct (Hquiet Hq) as (Hwr & Htab & Hlog).
  exists w1. auto.
Qed.

Lemma text_persisted_verbatim_witness :
  exists w', save_item (Envelope (py "He said hi") 1) (saver_world scenario_db) = (inr false, w')
    /\ writes (db w') = [(py "He said hi", 1)]
    /\ table (db w') = apply_update (table scenario_db) (py "He said hi", 1)
    /\ dlog w' = [LogUpdated 1].
Proof.
  apply (text_persisted_verbatim (table scenario_db) [] (py "He said hi") 1);
    reflexivity.
Defined.

(** What the call left out of [save_results] would do: when the request
    fails, [process_with_chatgpt] returns [None], and the guard on
    [processed_text] then skips the update. *)
Lemma failed_enrichment_skips_update (text : str) (company_id : Z) (w : dbworld) (e : exn) :
  exists w', save_item_with (process_with_chatgpt (fun _ => inl e))
               (Envelope text company_id) w = (inr false, w')
    /\ db w' = db w.
Proof.
  unfold save_item_with, process_with_chatgpt.
  destruct (negb (truthy text) || bool_decide (text = ERROR)).
  - exists w. split; reflexivity.
  - eexists. split; [reflexivity|]. reflexivity.
Qed.

(** C9: on every path through [parse_company] the invocation returns
    normally, and when [webdriver.Chrome] gave a session,
    [driver.quit()] is called on it exactly once, as the last call made
    on the session; when no session was created nothing is left open. *)
Theorem session_is_released (page : browser) (company_id : Z) (url : str) :
  let r := parse_company page (company_id, url) new_world in
  fst r = inr tt
  /\ match on_chrome page with
     | None => head (calls (snd r)) = Some CallChrome
               /\ last (calls (snd r)) = Some CallQuit
               /\ quits (calls (snd r)) = 1%nat
     | Some _ => calls (snd r) = [CallChrome]
     end.
Proof.
  destruct (parse_company_outcome page company_id url) as (w & Heq & _ & Hcalls).
  cbn zeta. rewrite Heq. split; [reflexivity | exact Hcalls].
Qed.

(** C10: an envelope whose text is empty leaves the store, the log and
    the loop as they were: nothing is written for that id; and a page
    with no text but blank ones produces such an envelope. *)
Theorem empty_text_is_dropped
    (company_id : Z) (url : str) (w : dbworld) (texts : list str) :
  save_item (Envelope [] company_id) w = (inr false, w)
  /\ (if forallb blank texts
      then emitted (loaded_page texts None) (company_id, url) = [Envelope [] company_id]
      else True).
Proof.
  split; [reflexivity|].
  destruct (forallb blank texts) eqn:Hall; [|exact I].
  rewrite emitted_loaded, (visible_text_blank texts Hall). reflexivity.
Qed.






(** C8: a failure of the store for one record is logged and does not
    stop the loop of [save_results].  Whatever the faults, the loop
    consumes every envelope up to ["STOP"] and returns through [break];
    every envelope with a text gets its own connection attempt and its
    own log line; a turn hit by a fault logs the error and goes on.  And
    the failure costs no other record its update: when the faults fall
    in the turn of one record only, at whatever call of that turn and
    however many of its calls fail, every envelope before it and every
    envelope after it is written and committed, each with its own text,
    in queue order; the failing record itself is written when the fault
    came after the commit. *)
Theorem store_failure_does_not_stop_loop
    (q rest : list item) (t : list row) (f : list bool) (text : str) (company_id : Z)
    (before after : list item) (f1 : list bool) :
  forallb is_envelope q = true ->
  forallb is_envelope before = true -> forallb is_envelope after = true ->
  truthy text = true ->
  quiet 7 f1 = false ->
  forallb negb (drop (turn_calls text company_id f1) f1) = true ->
  (exists w',
      save_results (q ++ STOP :: rest) (saver_world (fresh_db t f)) = (Returned, rest, w')
      /\ attempts (db w') = length (wanted q)
      /\ forall i, In i (wanted q) ->
           In (LogUpdated i) (dlog w') \/ In (LogErrorSaving i Error) (dlog w'))
  /\ (if negb (quiet 7 f)
      then exists w1,
          save_item (Envelope text company_id) (saver_world (fresh_db t f)) = (inr false, w1)
          /\ In (LogErrorSaving company_id Error) (dlog w1)
      else True)
  /\ (exists w',
      save_results ((before ++ Envelope text company_id :: after) ++ STOP :: rest)
        (saver_world (fresh_db t (replicate (7 * length (offered before)) false ++ f1)))
      = (Returned, rest, w')
      /\ In (LogErrorSaving company_id Error) (dlog w')
      /\ writes (db w')
         = offered before
           ++ (if quiet 3 f1 then [(text, company_id)] else [])
           ++ offered after
      /\ table (db w')
         = foldl apply_update t
             (offered before
              ++ (if quiet 5 f1 then [(text, company_id)] else [])
              ++ offered after)).
Proof.
  intros Hq Hbefore Hafter Ht Hhit Hclean. split; [|split].
  - destruct (save_results_drains q rest (saver_world (fresh_db t f))
                (all_envelopes_no_stop q Hq) eq_refl)
      as (w' & ls & Hrun & _ & Hatt & Hlog & Hrep).
    exists w'. split; [exact Hrun|]. split; [exact Hatt|].
    cbn in Hlog. rewrite Hlog. exact Hrep.
  - destruct (quiet 7 f) eqn:Hquiet; [exact I|]. cbn [negb].
    destruct (save_item_envelope (saver_world (fresh_db t f)) text company_id eq_refl)
      as (w1 & Heq & _ & _ & Htruthy).
    destruct (Htruthy Ht) as (_ & _ & (ls & Hlog & _ & Herr) & _).
    exists w1. split; [exact Heq|]. cbn in Hlog. rewrite Hlog. apply Herr, Hquiet.
  - rewrite <- app_assoc. cbn [app].
    destruct (save_results_quiet before (Envelope text company_id :: after ++ STOP :: rest) f1
                (saver_world (fresh_db t (replicate (7 * length (offered before)) false ++ f1)))
                (all_envelopes_no_stop before Hbefore) eq_refl eq_refl)
      as (w1 & ls1 & Hrun1 & Hu1 & Hf1 & Hw1 & Ht1 & Hl1).
    rewrite Hrun1. cbn [save_results].
    destruct (save_item_turn w1 text company_id Hu1 Ht)
      as (w2 & ls2 & Heq2 & Hu2 & Hf2 & Hw2 & Ht2 & Hl2 & Herr).
    rewrite Heq2. rewrite Hf1 in Hf2, Hw2, Ht2, Herr. rewrite Hhit in Herr.
    pose proof (all_envelopes_no_stop after Hafter) as Hn.
    destruct (save_results_drains after rest w2 Hn Hu2) as (w' & ls & Hrun & _ & _ & Hlog & _).
    destruct (save_results_writes after rest w2 Hn Hu2) as (ws & Hws & _ & Hexact).
    rewrite Hrun in Hws, Hexact. cbn [snd] in Hws, Hexact.
    rewrite Hf2 in Hexact. destruct (Hexact Hclean) as [-> Htab].
    exists w'. split; [exact Hrun|]. split; [|split].
    + rewrite Hlog, Hl2. apply in_or_app. left. apply in_or_app. right. exact Herr.
    + rewrite Hws, Hw2, Hw1. cbn. rewrite <- app_assoc. reflexivity.
    + rewrite Htab, Ht2, Ht1, !foldl_app. reflexivity.
Qed.

(** Three envelopes; the update of the second record fails and so does
    the closing of its cursor. *)
Lemma store_failure_does_not_stop_loop_witness :
  exists w',
    save_results (([Envelope (py "a") 1] ++ Envelope (py "b") 2 :: [Envelope (py "c") 1])
                  ++ STOP :: [])
      (saver_world (fresh_db (table scenario_db)
                      (replicate (7 * length (offered [Envelope (py "a") 1])) false
                       ++ [false; false; false; true; true])))
    = (Returned, [], w')
    /\ In (LogErrorSaving 2 Error) (dlog w')
    /\ writes (db w')
       = offered [Envelope (py "a") 1]
         ++ (if quiet 3 [false; false; false; true; true] then [(py "b", 2)] else [])
         ++ offered [Envelope (py "c") 1]
    /\ table (db w')
       = foldl apply_update (table scenario_db)
           (offered [Envelope (py "a") 1]
            ++ (if quiet 5 [false; false; false; true; true] then [(py "b", 2)] else [])
            ++ offered [Envelope (py "c") 1]).
Proof.
  refine (proj2 (proj2
    (store_failure_does_not_stop_loop
       [Envelope (py "a") 1; Envelope (py "b") 2] [] (table scenario_db) [true] (py "b") 2
       [Envelope (py "a") 1] [Envelope (py "c") 1] [false; false; false; true; true]
       _ _ _ _ _ _))); vm_compute; reflexivity.
Defined.

(** The first update fails, the second record is still written. *)
Example second_record_written_after_failure :
  let '(e, rest, w) :=
    save_results [Envelope (py "a") 1; Envelope (py "b") 2; STOP]
                 (saver_world (fresh_db (table scenario_db) [true])) in
  e = Returned /\ rest = [] /\ writes (db w) = [(py "b", 2)]
  /\ dlog w = [LogDatabaseError Error; LogErrorSaving 1 Error; LogUpdated 2].
Proof. vm_compute. repeat split. Qed.

Section Run.

Variable CONFIG : config.
Variable web : nat -> browser.





End Run.



(** C4: with a limit [MAX_THREADS] of at least one, at most that many
    extractors are active in any state of any run.  The processes of the
    current round are at most [MAX_THREADS]; every running extractor
    belongs to the current round; a round only begins when no extractor
    runs; and with a limit of one a process is only started when none
    runs, so that at most one is active. *)
Theorem bounded_concurrency
    (CONFIG : config) (web : nat -> browser) (t : list row) (f : list bool)
    (sched : list action) (s : system) :
  1 <= MAX_THREADS CONFIG ->
  run CONFIG web sched (init (fresh_db t f)) = Some s ->
  Z.of_nat (active s) <= MAX_THREADS CONFIG
  /\ Z.of_nat (length (waiting (main_pc s))) <= MAX_THREADS CONFIG
  /\ (forall pid l, procs s !! pid = Some (Running l) -> pid ∈ waiting (main_pc s))
  /\ (forall todo, main_pc s = AtLoop todo [] -> active s = O)
  /\ (MAX_THREADS CONFIG = 1 ->
      (active s <= 1)%nat
      /\ forall todo ps, main_pc s = AtLoop todo ps -> active s = O).
Proof.
  intros HK Hrun. pose proof (reachable_invariant CONFIG web t f sched s Hrun) as Hinv.
  pose proof (active_le_waiting CONFIG s Hinv) as Hact.
  pose proof (inv_round _ _ Hinv) as Hround.
  rewrite (limit_max_threads CONFIG HK) in Hround.
  split; [lia|]. split; [exact Hround|]. split; [|split].
  - intros pid l Hlook.
    destruct (running_not_joined CONFIG s pid l Hinv Hlook) as ((Hge & Hlt) & _).
    rewrite (inv_waiting _ _ Hinv). apply elem_of_seq.
    pose proof (inv_started _ _ Hinv). lia.
  - intros todo Hpc. rewrite Hpc in Hact. cbn in Hact. lia.
  - intros Hone. split; [lia|].
    intros todo ps Hpc. pose proof (inv_loop _ _ Hinv todo ps Hpc) as Hlt.
    rewrite (limit_max_threads CONFIG HK), Hone in Hlt.
    rewrite Hpc in Hact. cbn in Hact. lia.
Qed.

Lemma bounded_concurrency_witness :
  exists s, run scenario_config scenario_web [Main; Main; Main] (init scenario_db) = Some s
    /\ Z.of_nat (active s) <= MAX_THREADS scenario_config.
Proof.
  eexists. split; [vm_compute; reflexivity|].
  refine (proj1 (bounded_concurrency scenario_config scenario_web
                   (table scenario_db) [] [Main; Main; Main] _ _ _)).
  - vm_compute. discriminate.
  - vm_compute. reflexivity.
Defined.

(** With a limit of one and three records, the extractors run one at
    a time: the second can only be started after the first was joined. *)
Example one_at_a_time :
  let cfg := {| MAX_THREADS := 1; BATCH_SIZE := 3 |} in
  let d := fresh_db [ {| row_id := 1; homepageurl := py "a"; description := [] |};
                      {| row_id := 2; homepageurl := py "b"; description := [] |};
                      {| row_id := 3; homepageurl := py "c"; description := [] |} ] [] in
  option_map active (run cfg scenario_web [Main; Main] (init d)) = Some 1%nat
  /\ run cfg scenario_web [Main; Main; Main] (init d) = None
  /\ option_map active
       (run cfg scenario_web [Main; Main; Extractor 0; Extractor 0; Main; Main; Main] (init d))
     = Some 1%nat.
Proof. vm_compute. repeat split. Qed.

(** C7: a failed fetch returns the empty list instead of raising, and
    on an empty batch [main] logs and returns at once.
    [fetch_companies] always returns: the selected rows, or the empty
    list, with the error logged, when a connector call fails.  When it
    returns the empty list, no state of any run has an extractor, a
    started saver, an item on the queue or a write, and the only step
    ever taken is the one in which [main] logs and finishes. *)
Theorem empty_batch_ends_run
    (CONFIG : config) (web : nat -> browser) (t : list row) (f : list bool)
    (sched : list action) (s : system) :
  run CONFIG web sched (init (fresh_db t f)) = Some s ->
  (exists rows w',
      fetch_companies CONFIG (saver_world (fresh_db t f)) = (inr rows, w')
      /\ writes (db w') = []
      /\ (if quiet 7 f && (0 <=? BATCH_SIZE CONFIG)
          then rows = select_company t (BATCH_SIZE CONFIG)
          else rows = [] /\ In (LogErrorFetching Error) (dlog w')))
  /\ match fst (fetch_companies CONFIG (saver_world (fresh_db t f))) with
     | inr [] =>
         procs s = [] /\ active s = O /\ saver s = NotStarted
         /\ history s = [] /\ writes (sdb s) = []
         /\ (sched = []
             \/ sched = [Main] /\ main_pc s = Finished
                /\ last (main_log s) = Some LogNoCompanies)
     | _ => True
     end.
Proof.
  intros Hrun.
  destruct (fetch_companies_outcome CONFIG (saver_world (fresh_db t f)) eq_refl)
    as (rows & w' & Heq & _ & _ & Hwr & Hrows).
  split.
  - exists rows, w'. split; [exact Heq|]. split; [exact Hwr|].
    cbn [db saver_world fresh_db faults table dlog app] in Hrows.
    destruct (quiet 7 f && (0 <=? BATCH_SIZE CONFIG)); [exact Hrows|].
    destruct Hrows as (-> & ls & -> & Hin). auto.
  - rewrite Heq. cbn [fst]. destruct rows as [|c rows]; [|exact I].
    destruct sched as [|a sched].
    + injection Hrun as <-. cbn. repeat split; auto.
    + destruct a; cbn in Hrun; try discriminate.
      unfold main_step in Hrun. cbn in Hrun.
      change {| db := fresh_db t f; dlog := []; conn_var := None |}
        with (saver_world (fresh_db t f)) in Hrun.
      rewrite Heq in Hrun.
      destruct sched as [|b sched].
      * injection Hrun as <-. cbn. repeat split; auto.
        right. repeat split. apply last_snoc.
      * destruct b; discriminate Hrun.
Qed.

Lemma empty_batch_ends_run_witness :
  exists s, run scenario_config scenario_web [Main] (init (fresh_db (table scenario_db) [true]))
            = Some s
    /\ match fst (fetch_companies scenario_config
                    (saver_world (fresh_db (table scenario_db) [true]))) with
       | inr [] =>
           procs s = [] /\ active s = O /\ saver s = NotStarted
           /\ history s = [] /\ writes (sdb s) = []
           /\ ([Main] = []
               \/ [Main] = [Main] /\ main_pc s = Finished
                  /\ last (main_log s) = Some LogNoCompanies)
       | _ => True
       end.
Proof.
  eexists. split; [vm_compute; reflexivity|].
  refine (proj2 (empty_batch_ends_run scenario_config scenario_web
                   (table scenario_db) [true] [Main] _ _)).
  vm_compute. reflexivity.
Defined.

(** * Part V: further properties of the code

    ** The store *)

(** X1: [get_db_connection] gives the connection back on every exit.
    In [fetch_companies] and in a turn of [save_results] alike,
    [conn.close()] is called once, as the last call, exactly when
    [get_connection] returned; when the pool or the connection could
    not be had, nothing is closed.  No transaction stays open. *)
Theorem connection_is_closed
    (CONFIG : config) (t : list row) (f : list bool)
    (c : N) (text : str) (company_id : Z) :
  let d1 := db (snd (fetch_companies CONFIG (saver_world (fresh_db t f)))) in
  let d2 := db (snd (save_item (Envelope (c :: text) company_id)
                               (saver_world (fresh_db t f)))) in
  (if quiet 2 f
   then last (trace d1) = Some DbClose /\ closes d1 = 1%nat
        /\ last (trace d2) = Some DbClose /\ closes d2 = 1%nat
   else closes d1 = O /\ closes d2 = O)
  /\ uncommitted d1 = [] /\ uncommitted d2 = [].
Proof.
  unfold_store. cbn. unfold quiet, closes.
  destruct (BATCH_SIZE CONFIG <? 0); fault_cases; cbn; repeat split; reflexivity.
Qed.

(** X2: what one turn of [save_results] leaves behind, fault by fault.
    The turn makes seven calls on the connector: the pool, the
    connection, the cursor, the update, the commit, and the two closes
    on the way out, of the cursor and of the connection.  The update is
    issued exactly when the first three get through, and the row is
    rewritten exactly when the first five do.  A fault up to the commit
    is logged twice, by [get_db_connection] and by [save_results], and
    the row stays as it was.  A fault of one of the closes comes after
    the commit and after the line that reports the update: the row is
    written and reported so, and the turn still logs an error saving the
    company, preceded by the line of [get_db_connection] when it is the
    cursor that failed to close. *)
Theorem save_turn_outcome
    (t : list row) (f : list bool) (c : N) (text : str) (company_id : Z) :
  let w' := snd (save_item (Envelope (c :: text) company_id)
                           (saver_world (fresh_db t f))) in
  writes (db w') = (if quiet 3 f then [(c :: text, company_id)] else [])
  /\ table (db w') = (if quiet 5 f then apply_update t (c :: text, company_id) else t)
  /\ dlog w' = (if quiet 5 f
                then LogUpdated company_id
                     :: (if quiet 6 f
                         then if quiet 7 f then [] else [LogErrorSaving company_id Error]
                         else [LogDatabaseError Error; LogErrorSaving company_id Error])
                else [LogDatabaseError Error; LogErrorSaving company_id Error]).
Proof.
  unfold_store. cbn. unfold quiet, writes.
  fault_cases; cbn; repeat split; reflexivity.
Qed.

Lemma select_company_candidates (t : list row) (n : Z) :
  select_company t n = take (Z.to_nat n) (candidates t).
Proof. unfold select_company, candidates. symmetry. apply firstn_map. Qed.

Lemma candidates_rows (t : list row) (c : company) :
  In c (candidates t) ->
  exists r, In r t /\ row_id r = fst c /\ homepageurl r = snd c /\ description r = [].
Proof.
  unfold candidates. intros Hc. apply in_map_iff in Hc as (r & <- & Hr).
  apply list_elem_of_In, list_elem_of_filter in Hr as [Hempty Hr].
  exists r. split; [apply list_elem_of_In, Hr|]. repeat split.
  unfold str_empty in Hempty. destruct (description r); [reflexivity | discriminate].
Qed.

(** X3: [fetch_companies] hands [main] the whole answer of the server
    or nothing.  It makes seven calls on the connector: the pool, the
    connection, the cursor, the select, [fetchall], and the two closes
    on the way out.  When all seven get through and the server accepts
    the limit, it returns the answer to the select and logs nothing.
    In every other case it returns the empty list, also when the rows
    were already fetched and only a close failed: the batch is dropped.
    The failure is logged as an error fetching companies, preceded by
    the line of [get_db_connection] unless it is the connection that
    failed to close.  The table is left as it was and no update is
    issued. *)
Theorem fetch_companies_all_or_nothing (CONFIG : config) (t : list row) (f : list bool) :
  let r := fetch_companies CONFIG (saver_world (fresh_db t f)) in
  let accepted := 0 <=? BATCH_SIZE CONFIG in
  fst r = inr (if quiet 7 f && accepted then select_company t (BATCH_SIZE CONFIG) else [])
  /\ dlog (snd r)
     = (if quiet 7 f && accepted then []
        else if quiet 6 f && accepted then [LogErrorFetching Error]
        else [LogDatabaseError Error; LogErrorFetching Error])
  /\ table (db (snd r)) = t /\ writes (db (snd r)) = [].
Proof.
  unfold_store. cbn. unfold quiet, writes.
  destruct (Z.ltb_spec (BATCH_SIZE CONFIG) 0) as [Hn|Hn];
    [replace (0 <=? BATCH_SIZE CONFIG) with false by (symmetry; apply Z.leb_gt; lia)
    |replace (0 <=? BATCH_SIZE CONFIG) with true by (symmetry; apply Z.leb_le; lia)].
  all: rewrite ?andb_false_r, ?andb_true_r.
  all: fault_cases; cbn; repeat split; reflexivity.
Qed.

Lemma select_after_update (t : list row) (text : str) (company_id : Z) (n : Z) (url : str) :
  truthy text = true ->
  ~ In (company_id, url) (select_company (apply_update t (text, company_id)) n).
Proof.
  intros Ht Hin. rewrite select_company_candidates in Hin.
  apply list_elem_of_In, elem_of_take in Hin as (i & Hi & _).
  apply list_elem_of_lookup_2, list_elem_of_In, candidates_rows in Hi
    as (r & Hr & Hid & _ & Hdesc).
  unfold apply_update in Hr. apply in_map_iff in Hr as (r0 & <- & _).
  cbn [fst snd] in *. destruct (row_id r0 =? company_id) eqn:Heq; cbn in Hdesc, Hid.
  - rewrite Hdesc in Ht. discriminate.
  - apply Z.eqb_neq in Heq. contradiction.
Qed.

(** X4: a company whose text was written is not fetched again.  After
    a turn of [save_results] that met no fault, on an envelope with a
    text, no later [fetch_companies] returns the id of that envelope,
    whatever the limit and whatever the faults of the later call. *)
Theorem written_company_is_not_fetched_again
    (CONFIG : config) (t : list row) (f : list bool)
    (text : str) (company_id : Z) (f' : list bool) :
  truthy text = true -> quiet 6 f = true ->
  let w1 := snd (save_item (Envelope text company_id) (saver_world (fresh_db t f))) in
  let later := {| db := {| table := table (db w1); uncommitted := uncommitted (db w1);
                           faults := f'; trace := trace (db w1) |};
                  dlog := dlog w1; conn_var := None |} in
  exists rows, fst (fetch_companies CONFIG later) = inr rows
               /\ forall url, ~ In (company_id, url) rows.
Proof.
  intros Ht Hq.
  destruct (save_item_turn (saver_world (fresh_db t f)) text company_id eq_refl Ht)
    as (w1 & ls & Heq & Hu1 & _ & _ & Htab & _).
  cbn [saver_world fresh_db db faults table] in Htab.
  rewrite (quiet_le 5 6 f ltac:(lia) Hq) in Htab. cbn [foldl] in Htab.
  cbn zeta. rewrite Heq. cbn [snd].
  match goal with |- context [fetch_companies CONFIG ?w] =>
    destruct (fetch_companies_outcome CONFIG w Hu1)
      as (rows & w2 & Heq2 & _ & _ & _ & Hrows) end.
  rewrite Heq2. exists rows. split; [reflexivity|]. intros url.
  cbn [db table faults] in Hrows.
  destruct (quiet 7 f' && _).
  - rewrite Hrows, Htab. apply select_after_update, Ht.
  - destruct Hrows as [-> _]. intros [].
Qed.

Lemma written_company_is_not_fetched_again_witness :
  let w1 := snd (save_item (Envelope (py "He said hi") 1) (saver_world scenario_db)) in
  let later := {| db := {| table := table (db w1); uncommitted := uncommitted (db w1);
                           faults := []; trace := trace (db w1) |};
                  dlog := dlog w1; conn_var := None |} in
  exists rows, fst (fetch_companies scenario_config later) = inr rows
               /\ forall url, ~ In (1, url) rows.
Proof.
  apply (written_company_is_not_fetched_again scenario_config (table scenario_db) []
           (py "He said hi") 1 []); reflexivity.
Defined.

(** ** The loop of the aggregator *)

(** The loop on a queue without ["STOP"]: it takes every item and then
    waits; with ["STOP"] behind the same items it ends in the same state. *)
Lemma save_results_blocks (q : list item) :
  forall w : dbworld,
    STOP ∉ q -> uncommitted (db w) = [] ->
    exists w', save_results q w = (Blocked, [], w')
               /\ forall rest, save_results (q ++ STOP :: rest) w = (Returned, rest, w').
Proof.
  induction q as [|x q IH]; intros w Hstop Hu.
  - exists w. split; [reflexivity|]. intros rest. reflexivity.
  - apply not_elem_of_cons in Hstop as [Hx Hq].
    destruct x as [t i|]; [|congruence].
    destruct (save_item_envelope w t i Hu) as (w1 & Heq & Hu1 & _).
    destruct (IH w1 Hq Hu1) as (w' & Hblock & Hret).
    exists w'. cbn [app save_results]. rewrite Heq. auto.
Qed.

(** X5: [save_results] returns only on ["STOP"].  On a queue of
    envelopes alone it consumes them all and then waits in
    [result_queue.get()] for ever; with ["STOP"] after the same
    envelopes it returns, in the very same state of store and log, and
    leaves untouched whatever follows the first ["STOP"]. *)
Theorem save_results_returns_only_on_stop
    (q : list item) (t : list row) (f : list bool) :
  forallb is_envelope q = true ->
  exists w',
    save_results q (saver_world (fresh_db t f)) = (Blocked, [], w')
    /\ forall rest,
         save_results (q ++ STOP :: rest) (saver_world (fresh_db t f))
         = (Returned, rest, w').
Proof.
  intros Hq. apply save_results_blocks; [apply all_envelopes_no_stop, Hq | reflexivity].
Qed.

Lemma save_results_returns_only_on_stop_witness :
  exists w',
    save_results [Envelope (py "a") 1; Envelope [] 2]
                 (saver_world (fresh_db (table scenario_db) [true]))
    = (Blocked, [], w')
    /\ forall rest,
         save_results ([Envelope (py "a") 1; Envelope [] 2] ++ STOP :: rest)
                      (saver_world (fresh_db (table scenario_db) [true]))
         = (Returned, rest, w').
Proof.
  apply (save_results_returns_only_on_stop
           [Envelope (py "a") 1; Envelope [] 2] (table scenario_db) [true]).
  reflexivity.
Defined.

(** X6: the aggregator writes only what it is given, once and in
    order.  Over a whole queue the updates it issues form a subsequence
    of the envelopes that carry a text, each with its text and id
    unchanged; when the store has no fault they are exactly those
    envelopes, and the table is the result of applying them in queue
    order, so that for an id sent twice the later text stands. *)
Theorem updates_follow_the_queue
    (q rest : list item) (t : list row) (f : list bool) :
  forallb is_envelope q = true ->
  let w' := snd (save_results (q ++ STOP :: rest) (saver_world (fresh_db t f))) in
  writes (db w') `sublist_of` offered q
  /\ (if forallb negb f
      then writes (db w') = offered q
           /\ table (db w') = foldl apply_update t (offered q)
      else True).
Proof.
  intros Hq.
  destruct (save_results_writes q rest (saver_world (fresh_db t f))
              (all_envelopes_no_stop q Hq) eq_refl) as (ws & Hws & Hsub & Hexact).
  cbn zeta. rewrite Hws. cbn [writes saver_world fresh_db db trace omap app].
  split; [exact Hsub|].
  destruct (forallb negb f) eqn:Hf; [|exact I].
  destruct (Hexact Hf) as [-> Htab]. split; [reflexivity | exact Htab].
Qed.

Lemma updates_follow_the_queue_witness :
  let q := [Envelope (py "a") 1; Envelope [] 2; Envelope (py "b") 1] in
  let w' := snd (save_results (q ++ STOP :: []) (saver_world (fresh_db (table scenario_db) []))) in
  writes (db w') `sublist_of` offered q
  /\ (if forallb negb []
      then writes (db w') = offered q
           /\ table (db w') = foldl apply_update (table scenario_db) (offered q)
      else True).
Proof.
  apply (updates_follow_the_queue
           [Envelope (py "a") 1; Envelope [] 2; Envelope (py "b") 1] []
           (table scenario_db) []).
  reflexivity.
Defined.

Lemma kept_refl (ids : list Z) (t : list row) : kept ids t t.
Proof. split; [reflexivity|]. intros k r Hr. exists r. auto. Qed.

Lemma kept_trans (ids1 ids2 : list Z) (t1 t2 t3 : list row) :
  kept ids1 t1 t2 -> kept ids2 t2 t3 -> kept (ids1 ++ ids2) t1 t3.
Proof.
  intros [Hl1 H1] [Hl2 H2]. split; [congruence|].
  intros k r Hr.
  destruct (H1 k r Hr) as (r2 & Hr2 & Hid2 & Hurl2 & Hd2).
  destruct (H2 k r2 Hr2) as (r3 & Hr3 & Hid3 & Hurl3 & Hd3).
  exists r3. repeat split; try congruence.
  intros Hn. rewrite Hd3, Hd2; [reflexivity | |]; rewrite ?Hid2;
    intros Hin; apply Hn, in_or_app; auto.
Qed.

Lemma kept_update (t : list row) (text : str) (company_id : Z) :
  kept [company_id] t (apply_update t (text, company_id)).
Proof.
  unfold apply_update. split; [apply length_map|].
  induction t as [|r0 t IH]; intros k r Hr; [discriminate|].
  destruct k as [|k].
  - injection Hr as ->. cbn [map snd fst].
    destruct (row_id r =? company_id) eqn:Heq.
    + eexists. split; [reflexivity|]. cbn. repeat split.
      intros Hn. exfalso. apply Hn. left. symmetry. apply Z.eqb_eq, Heq.
    + exists r. auto.
  - apply (IH k r Hr).
Qed.

Lemma save_results_keeps (q : list item) :
  forall w : dbworld,
    uncommitted (db w) = [] ->
    kept (wanted q) (table (db w)) (table (db (snd (save_results q w)))).
Proof.
  induction q as [|x q IH]; intros w Hu; [apply kept_refl|].
  destruct x as [t i|]; [|apply kept_refl].
  destruct (save_item_envelope w t i Hu) as (w1 & Heq & Hu1 & Hfalsy & Htruthy).
  cbn [save_results]. rewrite Heq, wanted_cons.
  destruct (truthy t) eqn:Ht.
  - destruct (Htruthy eq_refl) as (_ & _ & _ & _ & Htab & _).
    apply (kept_trans [i] (wanted q) _ (table (db w1))); [|apply IH, Hu1].
    destruct Htab as [-> | [-> _]]; [apply kept_refl | apply kept_update].
  - rewrite (Hfalsy eq_refl) in *. apply IH, Hu.
Qed.

(** X7: [save_results] only ever rewrites descriptions, and only of
    the ids it was sent with a text.  Whatever the queue and the faults,
    the table keeps its rows, their ids and their urls in place, and
    the description of every row whose id came with no text in the
    queue. *)
Theorem save_results_touches_only_its_ids
    (q : list item) (t : list row) (f : list bool) :
  let t' := table (db (snd (save_results q (saver_world (fresh_db t f))))) in
  length t' = length t
  /\ forall k r, t !! k = Some r ->
       exists r', t' !! k = Some r' /\ row_id r' = row_id r
                  /\ homepageurl r' = homepageurl r
                  /\ (~ In (row_id r) (wanted q) -> description r' = description r).
Proof. exact (save_results_keeps q (saver_world (fresh_db t f)) eq_refl). Qed.

(** ** The extractor *)

Lemma all_texts_some (els : list (exn + str)) :
  forall texts, all_texts els = Some texts -> els = map inr texts.
Proof.
  induction els as [|[e|t] els IH]; intros texts H; cbn in H.
  - injection H as <-. reflexivity.
  - discriminate.
  - destruct (all_texts els) as [ts|]; [|discriminate].
    injection H as <-. cbn. rewrite (IH ts eq_refl). reflexivity.
Qed.

(** An element whose text cannot be read makes the generator raise. *)
Lemma texts_of_raises (els : list (exn + str)) :
  forall (f : nat -> exn + str -> nat * (exn + str)) (w : world),
    (forall n t, snd (f n t) = t) ->
    all_texts els = None ->
    exists e w', texts_of (imap f els) w = (inl e, w').
Proof.
  induction els as [|[e|t] els IH]; intros f w Hf H; cbn in H.
  - discriminate.
  - cbn [imap texts_of]. unfold el_text, bind, record_call, modify, raise.
    rewrite Hf. eauto.
  - destruct (all_texts els) eqn:Hall; [discriminate|].
    cbn [imap texts_of]. unfold el_text, bind, record_call, modify, ret.
    rewrite Hf. cbv beta iota.
    destruct (truthy (strip t)).
    + match goal with |- context [texts_of _ ?w0] =>
        destruct (IH (f ∘ S) w0) as (e & w' & Heq);
          [intros; apply Hf | reflexivity |] end.
      rewrite Heq. eauto.
    + match goal with |- context [texts_of _ ?w0] =>
        destruct (IH (f ∘ S) w0) as (e & w' & Heq);
          [intros; apply Hf | reflexivity |] end.
      rewrite Heq. eauto.
Qed.

(** X8: what [parse_company] puts on the queue, for every behaviour of
    the browser.  When a step before the [put] raises (the session, the
    navigation, the wait, the scroll, the search, or the text of any
    element, blank or not) the failure marker is put and nothing else.
    Otherwise the cleaned text is put, followed by the marker exactly
    when [driver.quit()] raises. *)
Theorem parse_company_puts (page : browser) (company_id : Z) (url : str) :
  emitted page (company_id, url)
  = match page_texts page with
    | None => [Envelope ERROR company_id]
    | Some texts =>
        Envelope (visible_text texts) company_id
          :: match on_quit page with
             | Some _ => [Envelope ERROR company_id]
             | None => []
             end
    end.
Proof.
  destruct page as [oc og ow os ofe oq]. unfold page_texts.
  cbn [on_chrome on_get on_wait on_scroll on_find_elements on_quit].
  destruct oc as [e|];
    [unfold emitted; unfold_extractor; cbn; browser_cases; reflexivity|].
  destruct og as [e|];
    [unfold emitted; unfold_extractor; cbn; browser_cases; reflexivity|].
  destruct ow as [e|];
    [unfold emitted; unfold_extractor; cbn; browser_cases; reflexivity|].
  destruct os as [e|];
    [unfold emitted; unfold_extractor; cbn; browser_cases; reflexivity|].
  destruct ofe as [e|els];
    [unfold emitted; unfold_extractor; cbn; browser_cases; reflexivity|].
  destruct (all_texts els) as [texts|] eqn:Hall.
  - rewrite (all_texts_some els texts Hall). apply emitted_loaded.
  - unfold emitted. unfold_extractor. cbn.
    match goal with |- context [texts_of ?l ?w] =>
      destruct (texts_of_raises els (fun n t => (n, t)) w) as (e & w' & Heq);
        [reflexivity | exact Hall |];
      pose proof (texts_of_frame _ _ _ _ Heq) as (Hq & Hl & Hd & cs & Hc & _);
      rewrite Heq end.
    cbn in Hq, Hl, Hd, Hc. cbn. browser_cases; reflexivity.
Qed.

(** X9: a step that raises is the last one tried.  After a failed
    navigation, wait, scroll or search, [parse_company] makes no further
    call on the session but [driver.quit()]: a timeout of the wait is
    not retried and nothing is read from the page.  [get_webdriver]
    logs the error when it is a [WebDriverException]; the error
    [parse_company] logs is the one of [driver.quit()] when that call
    raises too, which then hides the original one. *)
Theorem failed_step_is_the_last (page : browser) (company_id : Z) (url : str) :
  let w := snd (parse_company page (company_id, url) new_world) in
  let seen e := if is_WebDriverException e then [LogWebDriverError e] else [] in
  let final e := match on_quit page with Some e' => e' | None => e end in
  match on_chrome page, on_get page, on_wait page, on_scroll page,
        on_find_elements page with
  | Some e, _, _, _, _ =>
      calls w = [CallChrome]
      /\ log w = seen e ++ [LogErrorProcessing url e]
  | None, Some e, _, _, _ =>
      calls w = [CallChrome; CallGet url; CallQuit]
      /\ log w = seen e ++ [LogErrorProcessing url (final e)]
  | None, None, Some e, _, _ =>
      calls w = [CallChrome; CallGet url; CallWait; CallQuit]
      /\ log w = seen e ++ [LogErrorProcessing url (final e)]
  | None, None, None, Some e, _ =>
      calls w = [CallChrome; CallGet url; CallWait; CallScroll; CallQuit]
      /\ log w = seen e ++ [LogErrorProcessing url (final e)]
  | None, None, None, None, inl e =>
      calls w = [CallChrome; CallGet url; CallWait; CallScroll; CallFindElements; CallQuit]
      /\ log w = seen e ++ [LogErrorProcessing url (final e)]
  | None, None, None, None, inr _ => True
  end.
Proof.
  destruct page as [oc og ow os ofe oq].
  cbn [on_chrome on_get on_wait on_scroll on_find_elements on_quit].
  destruct oc as [e|]; [unfold_extractor; cbn; browser_cases; split; reflexivity|].
  destruct og as [e|]; [unfold_extractor; cbn; browser_cases; split; reflexivity|].
  destruct ow as [e|]; [unfold_extractor; cbn; browser_cases; split; reflexivity|].
  destruct os as [e|]; [unfold_extractor; cbn; browser_cases; split; reflexivity|].
  destruct ofe as [e|els]; [unfold_extractor; cbn; browser_cases; split; reflexivity|].
  exact I.
Qed.

(** ** The pipeline: nothing is lost between the batch and the saver *)







Section Accounting.

Variable CONFIG : config.
Variable web : nat -> browser.
Variable d : database.
Variable batch : list company.
Hypothesis fetched : fst (fetch_companies CONFIG (saver_world d)) = inr batch.




End Accounting.



(** X11: a limit of zero or less behaves as a limit of one.  With
    [MAX_THREADS <= 0] the test on the length of [processes] holds
    after every start, so each process is joined before the next is
    started: at most one extractor is active, and none whenever the
    loop is about to start one. *)
Theorem nonpositive_limit_runs_one_at_a_time
    (CONFIG : config) (web : nat -> browser) (t : list row) (f : list bool)
    (sched : list action) (s : system) :
  MAX_THREADS CONFIG <= 0 ->
  run CONFIG web sched (init (fresh_db t f)) = Some s ->
  (active s <= 1)%nat
  /\ forall todo ps, main_pc s = AtLoop todo ps -> ps = [] /\ active s = O.
Proof.
  intros HK Hrun. pose proof (reachable_invariant CONFIG web t f sched s Hrun) as Hinv.
  pose proof (active_le_waiting CONFIG s Hinv) as Hact.
  pose proof (inv_round _ _ Hinv) as Hround.
  assert (Hlim : limit CONFIG = 1) by (unfold limit; lia).
  rewrite Hlim in Hround. split; [lia|].
  intros todo ps Hpc. pose proof (inv_loop _ _ Hinv todo ps Hpc) as Hlt.
  rewrite Hlim in Hlt. rewrite Hpc in Hact. cbn in Hact.
  destruct ps; [split; [reflexivity | lia] | cbn in Hlt; lia].
Qed.

Lemma nonpositive_limit_runs_one_at_a_time_witness :
  exists s, run {| MAX_THREADS := 0; BATCH_SIZE := 400 |} scenario_web
                [Main; Main; Extractor 0] (init scenario_db) = Some s
    /\ (active s <= 1)%nat.
Proof.
  eexists. split; [vm_compute; reflexivity|].
  refine (proj1 (nonpositive_limit_runs_one_at_a_time
                   {| MAX_THREADS := 0; BATCH_SIZE := 400 |} scenario_web
                   (table scenario_db) [] [Main; Main; Extractor 0] _ _ _)).
  - vm_compute. discriminate.
  - vm_compute. reflexivity.
Defined.

(** X12: the pipeline neither hangs nor runs for ever.  In every
    state of a run either [main] has finished or some process can
    move: no [join] and no [get] waits for something that will not
    come.  And no run is longer than nine steps per company fetched
    plus seven. *)
Theorem pipeline_never_hangs
    (CONFIG : config) (web : nat -> browser) (t : list row) (f : list bool)
    (sched : list action) (s : system) :
  run CONFIG web sched (init (fresh_db t f)) = Some s ->
  (main_pc s = Finished \/ exists a s', step CONFIG web a s = Some s')
  /\ (length sched
      <= match fst (fetch_companies CONFIG (saver_world (fresh_db t f))) with
         | inr rows => 9 * length rows + 7
         | inl _ => 7
         end)%nat.
Proof.
  intros Hrun. pose proof (reachable_invariant CONFIG web t f sched s Hrun) as Hinv.
  split.
  - assert (Hdec : main_pc s = Finished \/ main_pc s <> Finished)
      by (destruct (main_pc s); solve [left; reflexivity | right; discriminate]).
    destruct Hdec as [Hfin|Hfin]; [left; exact Hfin|].
    right. apply progress; assumption.
  - pose proof (run_bounded CONFIG web sched _ _ (invariant_init CONFIG t f) Hrun) as Hb.
    remember (measure CONFIG s) as m eqn:Hm. clear Hm.
    unfold measure, main_measure in Hb. cbn in Hb.
    change {| db := fresh_db t f; dlog := []; conn_var := None |}
      with (saver_world (fresh_db t f)) in Hb.
    destruct (fst (fetch_companies CONFIG (saver_world (fresh_db t f)))); lia.
Qed.

Lemma pipeline_never_hangs_witness :
  exists s, run scenario_config scenario_web scenario_schedule (init scenario_db) = Some s
    /\ (main_pc s = Finished
        \/ exists a s', step scenario_config scenario_web a s = Some s').
Proof.
  eexists. split; [vm_compute; reflexivity|].
  refine (proj1 (pipeline_never_hangs scenario_config scenario_web
                   (table scenario_db) [] scenario_schedule _ _)).
  vm_compute. reflexivity.
Defined.

(** ** The cleaning of the text, and the enrichment *)

Lemma strip_incl (s : str) (c : N) : In c (strip s) -> In c s.
Proof.
  destruct (strip_trimmed s) as (lead & trail & Heq & _). intros Hc.
  rewrite Heq. apply in_or_app. right. apply in_or_app. left. exact Hc.
Qed.

Lemma lstrip_fixed (r : str) :
  (forall c, head r = Some c -> isspace c = false) -> lstrip r = r.
Proof.
  destruct r as [|c r]; [reflexivity|]. intros H. cbn.
  rewrite (H c eq_refl). reflexivity.
Qed.

Lemma strip_fixed (r : str) :
  (forall c, head r = Some c -> isspace c = false) ->
  (forall c, last r = Some c -> isspace c = false) ->
  strip r = r.
Proof.
  intros Hh Hl. unfold strip, rstrip. rewrite (lstrip_fixed r Hh).
  rewrite lstrip_fixed; [apply rev_involutive|].
  intros c Hc. apply Hl. rewrite <- head_rev_last. exact Hc.
Qed.

Lemma remove_quotes_fixed (s : str) :
  (forall c, In c s -> not_quote c = true) -> remove_quotes s = s.
Proof.
  unfold remove_quotes. induction s as [|c s IH]; intros H; [reflexivity|].
  cbn. rewrite (H c (or_introl eq_refl)), IH; [reflexivity|].
  intros c' Hc'. apply H. right. exact Hc'.
Qed.

(** X13: the text an extractor sends is clean.  What
    [parse_company] puts after a successful extraction is the result of
    the two [replace] calls and [strip] on the joined texts; it
    contains neither kind of quote, it neither starts nor ends with
    whitespace, and cleaning it again leaves it as it is. *)
Theorem sent_text_is_clean
    (texts : list str) (quit : option exn) (company_id : Z) (url : str) :
  let text := sanitize (join [space] (List.filter (fun x => negb (blank x)) texts)) in
  head (emitted (loaded_page texts quit) (company_id, url))
  = Some (Envelope text company_id)
  /\ ~ In dquote text /\ ~ In squote text
  /\ (forall c, head text = Some c -> isspace c = false)
  /\ (forall c, last text = Some c -> isspace c = false)
  /\ sanitize text = text.
Proof.
  intros text. subst text. unfold sanitize. rewrite replace_both_quotes.
  set (joined := join [space] _).
  destruct (strip_trimmed (remove_quotes joined)) as (lead & trail & _ & _ & _ & Hh & Hl).
  assert (Hq : forall c, In c (strip (remove_quotes joined)) -> not_quote c = true).
  { intros c Hc. apply strip_incl in Hc. unfold remove_quotes in Hc.
    apply filter_In in Hc as [_ Hc]. exact Hc. }
  split; [rewrite emitted_loaded; reflexivity|].
  split; [intros Hc; apply Hq in Hc; discriminate|].
  split; [intros Hc; apply Hq in Hc; discriminate|].
  split; [exact Hh|]. split; [exact Hl|].
  rewrite replace_both_quotes, (remove_quotes_fixed _ Hq).
  apply strip_fixed; assumption.
Qed.

(** X14: [process_with_chatgpt] never raises and never touches the
    store.  It returns [None] exactly when the text is empty, when the
    text is the failure marker, or when the request fails; otherwise it
    returns the content of the reply.  Only the first 3000 characters
    of the text reach the request. *)
Theorem enrichment_result (chat : str -> exn + str) (text : str) (w : dbworld) :
  let r := process_with_chatgpt chat text w in
  exists o, fst r = inr o
    /\ (o = None <-> text = [] \/ text = ERROR \/ exists e, chat (take 3000 text) = inl e)
    /\ (forall content, o = Some content -> chat (take 3000 text) = inr content)
    /\ db (snd r) = db w.
Proof.
  cbn zeta. unfold process_with_chatgpt.
  destruct text as [|c text].
  { exists None. split; [reflexivity|]. split; [tauto|].
    split; [intros ? [=] | reflexivity]. }
  cbn [truthy negb orb].
  destruct (decide (c :: text = ERROR)) as [Herr|Herr].
  { rewrite bool_decide_eq_true_2 by exact Herr. exists None.
    split; [reflexivity|]. split; [tauto|].
    split; [intros ? [=] | reflexivity]. }
  rewrite bool_decide_eq_false_2 by exact Herr.
  unfold try_except, bind, dlogging, modify, ret, raise, Exception.
  destruct (chat (take 3000 (c :: text))) as [e|content] eqn:Hchat; cbn [fst snd db].
  - exists None. split; [reflexivity|]. split; [split; eauto|].
    split; [intros ? [=] | reflexivity].
  - exists (Some content). split; [reflexivity|]. split; [split|].
    + discriminate.
    + intros [H | [H | [e He]]]; try discriminate; contradiction.
    + split; [intros content' [= <-]; reflexivity | reflexivity].
Qed.

(** ** The extractor and the aggregator together *)

Lemma apply_update_hit (t : list row) (text : str) (company_id : Z) (r : row) :
  In r (apply_update t (text, company_id)) -> row_id r = company_id ->
  description r = text.
Proof.
  unfold apply_update. intros Hr Hid. apply in_map_iff in Hr as (r0 & <- & _).
  cbn [fst snd] in *. destruct (row_id r0 =? company_id) eqn:Heq; [reflexivity|].
  apply Z.eqb_neq in Heq. contradiction.
Qed.

(** X15: a failure of [driver.quit()] costs the record its text.  When
    the extraction succeeds and [driver.quit()] then raises, the two
    envelopes of that record reach [save_results] in the order they
    were put, so that with a store without fault the last update for
    the id carries the marker: the description stored in the end is the
    marker and not the text extracted. *)
Theorem quit_failure_overwrites_text
    (texts : list str) (e : exn) (company_id : Z) (url : str)
    (t : list row) (f : list bool) (rest : list item) :
  forallb negb f = true ->
  let q := emitted (loaded_page texts (Some e)) (company_id, url) in
  let w' := snd (save_results (q ++ STOP :: rest) (saver_world (fresh_db t f))) in
  last (writes (db w')) = Some (ERROR, company_id)
  /\ forall r, In r (table (db w')) -> row_id r = company_id -> description r = ERROR.
Proof.
  intros Hf q w'. subst q w'. rewrite emitted_loaded.
  set (text := visible_text texts).
  assert (Hstop : STOP ∉ [Envelope text company_id; Envelope ERROR company_id]).
  { intros H. repeat (apply elem_of_cons in H as [H|H]; [discriminate|]).
    apply elem_of_nil in H. exact H. }
  destruct (save_results_writes [Envelope text company_id; Envelope ERROR company_id]
              rest (saver_world (fresh_db t f)) Hstop eq_refl) as (ws & Hws & _ & Hexact).
  destruct (Hexact Hf) as [-> Htab]. rewrite Hws, Htab. clear Hws Htab Hexact.
  rewrite !offered_cons. change (truthy ERROR) with true. cbv iota.
  change (offered []) with (@nil (str * Z)).
  cbn [saver_world fresh_db db table writes trace omap app].
  destruct (truthy text); cbn [foldl last]; (split; [reflexivity|]);
    intros r Hr Hid; eapply apply_update_hit; eauto.
Qed.

Lemma quit_failure_overwrites_text_witness :
  let q := emitted (loaded_page [py "hello"] (Some WebDriverException))
                   (1, py "https://a.test") in
  let w' := snd (save_results (q ++ STOP :: []) (saver_world (fresh_db (table scenario_db) []))) in
  last (writes (db w')) = Some (ERROR, 1)
  /\ forall r, In r (table (db w')) -> row_id r = 1 -> description r = ERROR.
Proof.
  apply (quit_failure_overwrites_text [py "hello"] WebDriverException 1
           (py "https://a.test") (table scenario_db) [] []).
  reflexivity.
Defined.
